(** * Product-BE: the colour/size stock model of [src/models/Product.ts]
      and the stock endpoints of [src/controllers/productController.ts].

    The embedding is shallow.  A JavaScript [number] is an integer ([Z]):
    stock counts, sizes and deltas are integers throughout the repository's
    data model; fractions, [NaN], the infinities and the rounding of
    integers beyond 2^53 are left out.  Arrays are [list]s, objects are
    records, an optional field is an [option].

    A product is a Mongoose document.  [this.variants] and the [sizes] of a
    colour are document arrays: what [find] hands out is the subdocument
    itself, modelled by its position in the array that owns it, while
    [push] stores a copy of its argument cast to the schema, so the object
    the caller built stays apart from the document.  [this.save()] runs the
    validators that the schemas declare and throws when one of them
    fails. *)

From stdpp Require Import base numbers list strings option pretty.

Local Open Scope Z_scope.

(** ** JavaScript values and control flow *)

Module Js.

(** A statement either completes normally or throws an [Error] whose
    [message] is kept. *)
Inductive Completion (A : Type) : Type :=
| Normal (a : A)
| Throw (message : string).
Global Arguments Normal {A} a.
Global Arguments Throw {A} message.

(** Computations over a mutable store [S].  The store survives a throw:
    whatever was mutated before the exception stays mutated. *)
Definition M (S A : Type) : Type := S → Completion A * S.

Definition ret {S A} (a : A) : M S A := λ s, (Normal a, s).

Definition bind {S A B} (m : M S A) (k : A → M S B) : M S B :=
  λ s, match m s with
       | (Normal a, s') => k a s'
       | (Throw e, s') => (Throw e, s')
       end.

Definition throw {S A} (message : string) : M S A := λ s, (Throw message, s).

(** [try { body } catch (error) { handler(error.message) }] *)
Definition try_catch {S A} (body : M S A) (handler : string → M S A) : M S A :=
  λ s, match body s with
       | (Normal a, s') => (Normal a, s')
       | (Throw e, s') => handler e s'
       end.

Definition get {S} : M S S := λ s, (Normal s, s).

(** [n || 0] on a number: [0] is the only falsy integer. *)
Definition or_zero (n : Z) : Z := if n =? 0 then 0 else n.

(** [haystack.includes(needle)] *)
Fixpoint includes (needle haystack : string) : bool :=
  if String.prefix needle haystack then true
  else match haystack with
       | EmptyString => false
       | String _ rest => includes needle rest
       end.

(** The double quote character, as it appears inside the templates. *)
Definition dq : string := String (Ascii.ascii_of_nat 34) EmptyString.

(** [Number.isSafeInteger(n)]: the integers on which the arithmetic of
    [number] is exact. *)
Definition is_safe_integer (n : Z) : bool :=
  (- (2 ^ 53 - 1) <=? n) && (n <=? 2 ^ 53 - 1).

(** [`${n}`] for an integer of magnitude below 10^21: its decimal numeral,
    with a leading minus sign when negative.  (From 10^21 on a [number] is
    printed with an exponent; the safe integers are all below.) *)
Definition num_to_string (n : Z) : string := pretty n.

(** A string is the sequence of its code units; the model keeps the code
    units below 256, one [ascii] each. *)
Definition chars (s : string) : list Ascii.ascii := Strings.String.list_ascii_of_string s.
Definition of_chars (l : list Ascii.ascii) : string := Strings.String.string_of_list_ascii l.

(** The White_Space and line terminator code units below 256: tab, line
    feed, vertical tab, form feed, carriage return, space, no-break space. *)
Definition is_whitespace (c : Ascii.ascii) : bool :=
  let n := Ascii.nat_of_ascii c in
  ((9 <=? n) && (n <=? 13) || (n =? 32) || (n =? 160))%nat.

Fixpoint drop_while {A} (p : A → bool) (l : list A) : list A :=
  match l with
  | [] => []
  | x :: rest => if p x then drop_while p rest else l
  end.

(** Removal of the longest run of [p] at the end. *)
Definition drop_end {A} (p : A → bool) (l : list A) : list A :=
  reverse (drop_while p (reverse l)).

(** [s.trim()] *)
Definition trim_chars (l : list Ascii.ascii) : list Ascii.ascii :=
  drop_end is_whitespace (drop_while is_whitespace l).
Definition trim (s : string) : string := of_chars (trim_chars (chars s)).

(** [s.toLowerCase()], code unit by code unit: A-Z and the upper-case
    letters of Latin-1 (U+00C0 to U+00DE without the multiplication sign)
    move up by 32. *)
Definition to_lower_char (c : Ascii.ascii) : Ascii.ascii :=
  let n := Ascii.nat_of_ascii c in
  if ((65 <=? n) && (n <=? 90)
      || (192 <=? n) && (n <=? 222) && negb (n =? 215))%nat
  then Ascii.ascii_of_nat (n + 32) else c.
Definition toLowerCase (s : string) : string :=
  of_chars (to_lower_char <$> chars s).

(** [new Set(l).size]: the number of distinct values (for integers and
    strings SameValueZero is equality). *)
Definition set_size {A} `{EqDecision A} (l : list A) : nat :=
  length (remove_dups l).

(** [l.slice(0, e)] for an integer [e]: a negative [e] counts from the
    end. *)
Definition slice0 {A} (l : list A) (e : Z) : list A :=
  if e <? 0 then take (Z.to_nat (Z.max (Z.of_nat (length l) + e) 0)) l
  else take (Z.to_nat e) l.

End Js.

(** stdpp's monad notations ([x ← m; k] and [m;; k]) are used for sequencing. *)
Global Instance Js_ret {S} : MRet (Js.M S) := λ A, Js.ret.
Global Instance Js_bind {S} : MBind (Js.M S) := λ A B k m, Js.bind m k.
(** ** [src/types/index.ts], [src/models/schemas/colorSchema.ts] and
       [src/models/Product.ts] *)

Module Product.

(** [size: number | string] *)
Inductive Size : Type :=
| NumSize (n : Z)
| StrSize (s : string).

Global Instance Size_eq_dec : EqDecision Size.
Proof. solve_decision. Defined.

(** [a === b] on sizes: same type and same value, no coercion. *)
Definition strict_eq (a b : Size) : bool :=
  match a, b with
  | NumSize m, NumSize n => m =? n
  | StrSize s, StrSize t => String.eqb s t
  | _, _ => false
  end.

(** [`${size}`] *)
Definition size_to_string (sz : Size) : string :=
  match sz with
  | NumSize n => Js.num_to_string n
  | StrSize s => s
  end.

Record SizeVariant : Type := mkSizeVariant {
  size : Size;
  stock : Z
}.

Record ColorVariant : Type := mkColorVariant {
  color : string;
  sizes : list SizeVariant;
  images : option (list string)
}.

(** Of [IProduct] only [variants] is read or written by the stock code;
    [None] is an absent ([undefined] or [null]) field. *)
Record Doc : Type := mkDoc {
  variants : option (list ColorVariant)
}.

(** The in-memory document [this] and the copy held by the storage layer. *)
Record World : Type := mkWorld {
  this : Doc;
  stored : Doc
}.

Definition loaded (p : Doc) : World := mkWorld p p.

Abbreviation M := (Js.M World).

Definition set_variants (vs : list ColorVariant) : M unit :=
  λ w, (Js.Normal (), mkWorld (mkDoc (Some vs)) (stored w)).

(** [this.variants] once it is known to be an array. *)
Definition get_variants : M (list ColorVariant) :=
  λ w, (match variants (this w) with
        | Some vs => Js.Normal vs
        | None => Js.Throw "TypeError"
        end, w).

(** Dereference of a subdocument of [this.variants]. *)
Definition get_color (ci : nat) : M ColorVariant :=
  vs ← get_variants;
  match vs !! ci with
  | Some cv => Js.ret cv
  | None => Js.throw "TypeError"
  end.

Definition set_sizes (ci : nat) (szs : list SizeVariant) : M unit :=
  vs ← get_variants;
  cv ← get_color ci;
  set_variants (<[ci := mkColorVariant (color cv) szs (images cv)]> vs).

(** Dereference of a subdocument of the [sizes] of a colour. *)
Definition get_size (ci si : nat) : M SizeVariant :=
  cv ← get_color ci;
  match sizes cv !! si with
  | Some sv => Js.ret sv
  | None => Js.throw "TypeError"
  end.

(** [sizeVariant.stock = n] on a subdocument. *)
Definition set_stock (ci si : nat) (n : Z) : M unit :=
  cv ← get_color ci;
  sv ← get_size ci si;
  set_sizes ci (<[si := mkSizeVariant (size sv) n]> (sizes cv)).

(** *** The schemas: casts and validators *)

(** The copy of a plain colour object that the document array [variants]
    stores: [color] goes through [trim: true], a missing [images] takes its
    default.  ([size] is [Mixed] and [stock] a number, so a plain size
    object is stored as it is.) *)
Definition cast_color (cv : ColorVariant) : ColorVariant :=
  mkColorVariant (Js.trim (color cv)) (sizes cv) (Some (default [] (images cv))).

(** The [validator] of [sizeSchema.size]. *)
Definition size_validator (v : Size) : bool :=
  match v with
  | NumSize n => (1 <=? n) && (n <=? 50)
  | StrSize s =>
      (0 <? String.length (Js.trim s))%nat && (String.length s <=? 10)%nat
  end.

(** [min: 0] of [sizeSchema.stock]. *)
Definition stock_min (n : Z) : bool := 0 <=? n.

(** The [validator] of [colorSchema.sizes]. *)
Definition sizes_validator (v : list SizeVariant) : bool :=
  if (length v =? 0)%nat then false
  else
    let sizes := size <$> v in
    (length sizes =? Js.set_size sizes)%nat.

(** The [validator] of [productSchema.variants]. *)
Definition variants_validator (v : option (list ColorVariant)) : bool :=
  match v with
  | None => false
  | Some l => (0 <? length l)%nat
  end.

(** What validation reports for the SizeVariant at [path]: each failing
    path with the message its schema declares. *)
Definition size_errors (path : string) (sv : SizeVariant) : list string :=
  (if size_validator (size sv) then []
   else [path +:+ ".size: Size must be a number (1-50) or a non-empty string (max 10 characters)"])
  ++ (if stock_min (stock sv) then []
      else [path +:+ ".stock: Stock cannot be negative"]).

(** For the ColorVariant at [path]: [required] on a string refuses the
    empty one. *)
Definition color_errors (path : string) (cv : ColorVariant) : list string :=
  (if String.eqb (color cv) EmptyString
   then [path +:+ ".color: Color is required"] else [])
  ++ (if sizes_validator (sizes cv) then []
      else [path +:+ ".sizes: At least one size variant is required and sizes must be unique within a color"])
  ++ mjoin (imap (λ j, size_errors (path +:+ ".sizes." +:+ pretty j)) (sizes cv)).

(** For the [variants] tree of a product.  The other paths of the product
    are not touched by the stock code and are taken to pass. *)
Definition validation_errors (p : Doc) : list string :=
  match variants p with
  | None => ["variants: Variants are required"]
  | Some vs =>
      (if variants_validator (Some vs) then []
       else ["variants: At least one color variant is required"])
      ++ mjoin (imap (λ i, color_errors ("variants." +:+ pretty i)) vs)
  end.

(** The [message] of the ValidationError: the model name, then the failing
    paths. *)
Definition validation_failed (errors : list string) : string :=
  "Product validation failed: " +:+ String.concat ", " errors.

(** [this.save()]: the document is validated; when it passes, the storage
    layer receives the whole aggregate and the call resolves with the
    document; when it does not, the call throws and nothing is stored. *)
Definition save : M Doc :=
  λ w, match validation_errors (this w) with
       | [] => (Js.Normal (this w), mkWorld (this w) (this w))
       | errors => (Js.Throw (validation_failed errors), w)
       end.

(** *** [updateStock] *)

Definition insufficient_stock (clr : string) (sz : Size)
    (currentStock quantity : Z) : string :=
  "Insufficient stock for color " +:+ Js.dq +:+ clr +:+ Js.dq
    +:+ " size " +:+ size_to_string sz
    +:+ ". Available: " +:+ Js.num_to_string currentStock
    +:+ ", Requested: " +:+ Js.num_to_string quantity.

(** What the local variable [colorVariant] holds: the subdocument at a
    position of [this.variants], or the plain object built by the method,
    of which the document has only a copy. *)
Inductive ColorRef : Type :=
| ColorAt (ci : nat)
| ColorObject (cv : ColorVariant).

(** What [sizeVariant] holds, likewise. *)
Inductive SizeRef : Type :=
| SizeAt (ci si : nat)
| SizeObject (sv : SizeVariant).

(** [productSchema.methods.updateStock] *)
Definition updateStock (clr : string) (sz : Size) (quantity : Z) : M Doc :=
  w ← Js.get;
  (if variants (this w) is None then set_variants [] else Js.ret ());;
  (* Find or create color variant *)
  vs ← get_variants;
  colorVariant ←
    match list_find (λ v, color v = clr) vs with
    | Some (i, _) => Js.ret (ColorAt i)
    | None =>
        let colorVariant := mkColorVariant clr [] None in
        set_variants (vs ++ [cast_color colorVariant]);;
        Js.ret (ColorObject colorVariant)
    end;
  (* Find or create size variant *)
  sizeVariant ←
    match colorVariant with
    | ColorAt ci =>
        cv ← get_color ci;
        match list_find (λ s, strict_eq (size s) sz) (sizes cv) with
        | Some (j, _) => Js.ret (SizeAt ci j)
        | None =>
            let sizeVariant := mkSizeVariant sz 0 in
            set_sizes ci (sizes cv ++ [sizeVariant]);;
            Js.ret (SizeObject sizeVariant)
        end
    | ColorObject cv =>
        (* the plain array of the plain object: the push stays local *)
        match list_find (λ s, strict_eq (size s) sz) (sizes cv) with
        | Some (_, sv) => Js.ret (SizeObject sv)
        | None => Js.ret (SizeObject (mkSizeVariant sz 0))
        end
    end;
  sv ← match sizeVariant with
       | SizeAt ci si => get_size ci si
       | SizeObject sv => Js.ret sv
       end;
  let currentStock := Js.or_zero (stock sv) in
  let newStock := currentStock + quantity in
  if newStock <? 0 then
    Js.throw (insufficient_stock clr sz currentStock quantity)
  else
    match sizeVariant with
    | SizeAt ci si => set_stock ci si newStock
    | SizeObject _ => Js.ret ()   (* the write goes to the plain object *)
    end;;
    save.

(** The [inStock] virtual.  The two nested [for ... of] loops with their
    early [return true] are the two scans below. *)
Fixpoint scan_sizes (l : list SizeVariant) : bool :=
  match l with
  | [] => false
  | sizeVariant :: rest =>
      if 0 <? stock sizeVariant then true else scan_sizes rest
  end.

Fixpoint scan_variants (l : list ColorVariant) : bool :=
  match l with
  | [] => false
  | variant :: rest =>
      if (0 <? length (sizes variant))%nat && scan_sizes (sizes variant)
      then true
      else scan_variants rest
  end.

Definition inStock (p : Doc) : bool :=
  match variants p with
  | None => false
  | Some vs => if (length vs =? 0)%nat then false else scan_variants vs
  end.

(** The [totalStock] virtual: [total] is the loop accumulator. *)
Definition totalStock (p : Doc) : Z :=
  match variants p with
  | None => 0
  | Some vs =>
      if (length vs =? 0)%nat then 0
      else
        fold_left (λ total variant,
          if (0 <? length (sizes variant))%nat then
            fold_left (λ total sizeVariant,
              total + Js.or_zero (stock sizeVariant)) (sizes variant) total
          else total) vs 0
  end.

(** [productSchema.methods.getStockBySize] *)
Definition getStockBySize (p : Doc) (sz : Size) : Z :=
  match variants p with
  | None => 0
  | Some vs =>
      if (length vs =? 0)%nat then 0
      else
        fold_left (λ total variant,
          if (0 <? length (sizes variant))%nat then
            match list_find (λ s, strict_eq (size s) sz) (sizes variant) with
            | Some (_, sizeVariant) => total + Js.or_zero (stock sizeVariant)
            | None => total
            end
          else total) vs 0
  end.

End Product.

(** ** [src/controllers/productController.ts]: the two stock endpoints *)

Module ProductController.

(** A field of a parsed JSON body, before any type check. *)
Inductive JsVal : Type :=
| JUndefined
| JNull
| JBool (b : bool)
| JNum (n : Z)
| JStr (s : string)
| JObject.

Definition typeof (v : JsVal) : string :=
  match v with
  | JUndefined => "undefined"
  | JNull => "object"
  | JBool _ => "boolean"
  | JNum _ => "number"
  | JStr _ => "string"
  | JObject => "object"
  end.

(** [!v] *)
Definition falsy (v : JsVal) : bool :=
  match v with
  | JUndefined | JNull => true
  | JBool b => negb b
  | JNum n => n =? 0
  | JStr s => String.eqb s EmptyString
  | JObject => false
  end.

(** [`${v}`] *)
Definition to_string (v : JsVal) : string :=
  match v with
  | JUndefined => "undefined"
  | JNull => "null"
  | JBool true => "true"
  | JBool false => "false"
  | JNum n => Js.num_to_string n
  | JStr s => s
  | JObject => "[object Object]"
  end.

(** One element of [variants[i].sizes] in [BulkStockUpdateBody]. *)
Record SizeUpdate : Type := mkSizeUpdate {
  size : JsVal;
  quantity : JsVal
}.

(** One element of [variants]; [sizes] is [None] when the field is missing
    or is not an array. *)
Record VariantUpdate : Type := mkVariantUpdate {
  color : JsVal;
  sizes : option (list SizeUpdate)
}.

(** What [res.status(...).json({...})] sends. *)
Record ApiResponse : Type := mkApiResponse {
  status : Z;
  success : bool;
  data : option Product.Doc;
  message : string;
  errors : option (list string)
}.

(** The two local arrays of [updateBulkStock]. *)
Record Log : Type := mkLog {
  updates : list string;
  log_errors : list string
}.

Definition push_update (l : Log) (s : string) : Log :=
  mkLog (updates l ++ [s]) (log_errors l).
Definition push_error (l : Log) (s : string) : Log :=
  mkLog (updates l) (log_errors l ++ [s]).

Definition update_line (clr : string) (sz quantity : Z) : string :=
  clr +:+ " size " +:+ Js.num_to_string sz +:+ ": "
    +:+ (if 0 <? quantity then "+" else EmptyString)
    +:+ Js.num_to_string quantity.

Definition error_line (clr : string) (sz : Z) (errorMessage : string) : string :=
  "Error updating " +:+ clr +:+ " size " +:+ Js.num_to_string sz
    +:+ ": " +:+ errorMessage.

(** Body of [for (const sizeUpdate of variant.sizes)]; [clr] is
    [variant.color], already known to be a non-empty string.  The test
    [typeof x !== 'number'] is the match on [JNum]. *)
Definition size_step (clr : string) (l : Log) (sizeUpdate : SizeUpdate)
    : Product.M Log :=
  match size sizeUpdate with
  | JNum sz =>
      match quantity sizeUpdate with
      | JNum q =>
          Js.try_catch
            (_ ← Product.updateStock clr (Product.NumSize sz) q;
             mret (push_update l (update_line clr sz q)))
            (λ errorMessage,
               mret (push_error l (error_line clr sz errorMessage)))
      | _ =>
          mret (push_error l
            ("Invalid quantity for color " +:+ Js.dq +:+ clr +:+ Js.dq
               +:+ " size " +:+ Js.num_to_string sz +:+ ": must be a number"))
      end
  | _ =>
      mret (push_error l
        ("Invalid size for color " +:+ Js.dq +:+ clr +:+ Js.dq
           +:+ ": must be a number"))
  end.

(** A [for ... of] loop whose body threads the log and the store. *)
Fixpoint for_of {A} (body : Log → A → Product.M Log) (xs : list A) (l : Log)
    : Product.M Log :=
  match xs with
  | [] => mret l
  | x :: rest => l' ← body l x; for_of body rest l'
  end.

(** Body of [for (const variant of variants)].  The test
    [!variant.color || typeof variant.color !== 'string'] lets through the
    non-empty strings only; [!variant.sizes || !Array.isArray(variant.sizes)]
    lets through the arrays only. *)
Definition variant_step (l : Log) (variant : VariantUpdate) : Product.M Log :=
  match color variant with
  | JStr clr =>
      if String.eqb clr EmptyString then
        mret (push_error l
          "Invalid variant: color is required and must be a string")
      else
        match sizes variant with
        | Some szs => for_of (size_step clr) szs l
        | None =>
            mret (push_error l
              ("Invalid variant for color " +:+ Js.dq +:+ clr +:+ Js.dq
                 +:+ ": sizes must be an array"))
        end
  | _ =>
      mret (push_error l
        "Invalid variant: color is required and must be a string")
  end.

Definition bulk_loop (variants : list VariantUpdate) : Product.M Log :=
  for_of variant_step variants (mkLog [] []).

(** The response chosen after the loops, from the two arrays and the
    document as it then is. *)
Definition bulk_response (l : Log) (product : Product.Doc) : ApiResponse :=
  if (0 <? length (log_errors l))%nat && (length (updates l) =? 0)%nat then
    mkApiResponse 400 false None "Failed to update stock" (Some (log_errors l))
  else
    mkApiResponse 200 true (Some product)
      ("Stock updated for " +:+ pretty (length (updates l))
         +:+ " color-size combination(s)")
      (if (0 <? length (log_errors l))%nat then Some (log_errors l) else None).

(** [updateBulkStock]: [variants] is [req.body.variants] ([None] when it is
    missing or not an array), [found] is what [Product.findById] resolved
    to.  The second component is the document the
    handler loaded, with the stored copy, as they are when the response is
    sent; it is [None] when the handler answered before loading one. *)
Definition updateBulkStock (variants : option (list VariantUpdate))
    (found : option Product.Doc) : ApiResponse * option Product.World :=
  match variants with
  | None =>
      (mkApiResponse 400 false None
         "variants is required and must be an array of color variants with sizes"
         None, None)
  | Some vs =>
      match found with
      | None => (mkApiResponse 404 false None "Product not found" None, None)
      | Some product =>
          match bulk_loop vs (Product.loaded product) with
          | (Js.Normal l, w) => (bulk_response l (Product.this w), Some w)
          | (Js.Throw errorMessage, w) =>
              (mkApiResponse 500 false None "Error updating bulk stock"
                 (Some [errorMessage]), Some w)
          end
      end
  end.

(** The call [await product.updateStock(color, size, quantity)] of the
    single-slot endpoint together with its two responses. *)
Definition single_call (clr : string) (sz : Product.Size) (q : Z)
    (product : Product.Doc) : ApiResponse * option Product.World :=
  match Product.updateStock clr sz q (Product.loaded product) with
  | (Js.Normal _, w) =>
      (mkApiResponse 200 true (Some (Product.this w))
         ("Stock updated successfully for color " +:+ Js.dq +:+ clr +:+ Js.dq
            +:+ " size " +:+ Product.size_to_string sz) None, Some w)
  | (Js.Throw errorMessage, w) =>
      (mkApiResponse
         (if Js.includes "Insufficient stock" errorMessage then 400 else 500)
         false None
         (if String.eqb errorMessage EmptyString then "Error updating stock"
          else errorMessage)
         (Some [errorMessage]), Some w)
  end.

(** [updateStock], the single-slot endpoint; [found] is what
    [Product.findById] resolved to.  The three type tests answer before any
    document is loaded.  After them only a string
    color, a number or string size and a number quantity remain, so the
    last branch of the match is never taken. *)
Definition updateStock (clr sz qty : JsVal) (found : option Product.Doc)
    : ApiResponse * option Product.World :=
  if falsy clr || negb (String.eqb (typeof clr) "string") then
    (mkApiResponse 400 false None "Color is required and must be a string"
       None, None)
  else if negb (String.eqb (typeof sz) "number")
          && negb (String.eqb (typeof sz) "string") then
    (mkApiResponse 400 false None
       "Size is required and must be a number or string" None, None)
  else if negb (String.eqb (typeof qty) "number") then
    (mkApiResponse 400 false None "Quantity must be a number" None, None)
  else
    match found, clr, sz, qty with
    | None, _, _, _ =>
        (mkApiResponse 404 false None "Product not found" None, None)
    | Some product, JStr c, JNum n, JNum q =>
        single_call c (Product.NumSize n) q product
    | Some product, JStr c, JStr s, JNum q =>
        single_call c (Product.StrSize s) q product
    | Some product, _, _, _ =>
        (mkApiResponse 500 false None "TypeError" (Some ["TypeError"]),
         Some (Product.loaded product))
    end.

(** What [Product.findById(id)] comes to: it resolves, to a document or to
    [null], or it rejects with an error (the query throws a CastError when
    [id] is not a well-formed ObjectId). *)
Inductive Lookup : Type :=
| Resolves (found : option Product.Doc)
| Rejects (errorMessage : string).

(** The single-slot endpoint with its lookup.  The type tests answer before
    the lookup is made; a lookup that rejects lands in the [catch] of the
    handler. *)
Definition updateStock_handler (clr sz qty : JsVal) (lookup : Lookup)
    : ApiResponse * option Product.World :=
  match lookup with
  | Resolves found => updateStock clr sz qty found
  | Rejects errorMessage =>
      if falsy clr || negb (String.eqb (typeof clr) "string")
         || negb (String.eqb (typeof sz) "number")
            && negb (String.eqb (typeof sz) "string")
         || negb (String.eqb (typeof qty) "number")
      then updateStock clr sz qty None
      else
        (mkApiResponse
           (if Js.includes "Insufficient stock" errorMessage then 400 else 500)
           false None
           (if String.eqb errorMessage EmptyString then "Error updating stock"
            else errorMessage)
           (Some [errorMessage]), None)
  end.

(** The bulk endpoint with its lookup, likewise. *)
Definition updateBulkStock_handler (variants : option (list VariantUpdate))
    (lookup : Lookup) : ApiResponse * option Product.World :=
  match lookup with
  | Resolves found => updateBulkStock variants found
  | Rejects errorMessage =>
      match variants with
      | None => updateBulkStock None None
      | Some _ =>
          (mkApiResponse 500 false None "Error updating bulk stock"
             (Some [errorMessage]), None)
      end
  end.

(** [hasStock], the helper of [getAllProducts]. *)
Fixpoint hasStock_sizes (l : list Product.SizeVariant) : bool :=
  match l with
  | [] => false
  | sizeVariant :: rest =>
      if 0 <? Product.stock sizeVariant then true else hasStock_sizes rest
  end.

Fixpoint hasStock_variants (l : list Product.ColorVariant) : bool :=
  match l with
  | [] => false
  | variant :: rest =>
      if hasStock_sizes (Product.sizes variant) then true
      else hasStock_variants rest
  end.

Definition hasStock (variants : option (list Product.ColorVariant)) : bool :=
  match variants with
  | None => false
  | Some vs => if (length vs =? 0)%nat then false else hasStock_variants vs
  end.

(** [getAllProducts] after the query: [found] is what
    [Product.find(query)...limit(Number(limit) * 2)] resolved to, [limit] is
    [Number(limit)].  The [inStock] filter and the final [slice]. *)
Definition listed_products (inStock : option string) (limit : Z)
    (found : list Product.Doc) : list Product.Doc :=
  let products :=
    if decide (inStock = Some "true") then
      filter (λ product, hasStock (Product.variants product)) found
    else found in
  Js.slice0 products limit.

(** The [total] of the pagination: [allProducts] is what the second
    [Product.find(query)] resolved to, [count] what [countDocuments] did. *)
Definition listed_total (inStock : option string)
    (allProducts : list Product.Doc) (count : Z) : Z :=
  if decide (inStock = Some "true") then
    Z.of_nat (length
      (filter (λ product, hasStock (Product.variants product)) allProducts))
  else count.

End ProductController.

(** ** [src/models/Brand.ts] and [src/models/ProductType.ts]: the slug hook *)

Module Brand.

Definition hyphen : Ascii.ascii := Ascii.ascii_of_nat 45.

Definition is_hyphen (c : Ascii.ascii) : bool :=
  bool_decide (c = hyphen).

(** The class [a-z0-9]. *)
Definition is_alnum (c : Ascii.ascii) : bool :=
  let n := Ascii.nat_of_ascii c in
  ((97 <=? n) && (n <=? 122) || (48 <=? n) && (n <=? 57))%nat.

(** [.replace(/[^a-z0-9]+/g, '-')]: every maximal run of code units outside
    the class becomes one hyphen; [in_run] tells that the run has started. *)
Fixpoint replace_runs (in_run : bool) (l : list Ascii.ascii)
    : list Ascii.ascii :=
  match l with
  | [] => []
  | c :: rest =>
      if is_alnum c then c :: replace_runs false rest
      else if in_run then replace_runs true rest
      else hyphen :: replace_runs true rest
  end.

(** [.replace(/^-+|-+$/g, '')] *)
Definition strip_hyphens (l : list Ascii.ascii) : list Ascii.ascii :=
  Js.drop_end is_hyphen (Js.drop_while is_hyphen l).

(** [name.toLowerCase().trim().replace(...).replace(...)] *)
Definition slug_chars (l : list Ascii.ascii) : list Ascii.ascii :=
  strip_hyphens (replace_runs false (Js.trim_chars (Js.to_lower_char <$> l))).

Definition slug_of (name : string) : string :=
  Js.of_chars (slug_chars (Js.chars name)).

(** The [pre('save')] hook of both schemas: [slug] and [name] are the two
    fields, [None] when absent; the result is the [slug] field afterwards. *)
Definition pre_save (slug name : option string) : option string :=
  match slug, name with
  | Some (String _ _), _ => slug
  | _, Some (String c rest) => Some (slug_of (String c rest))
  | _, _ => slug
  end.

(** The [match] pattern of the [slug] field, [/^[a-z0-9-]+$/]. *)
Definition slug_pattern (s : string) : bool :=
  match Js.chars s with
  | [] => false
  | l => forallb (λ c, is_alnum c || is_hyphen c) l
  end.

End Brand.

(** ** Vocabulary of the specification *)

Module Spec.
Import Product.

(** [this.variants] read as a sequence: an absent field holds no variant. *)
Definition variants_of (p : Doc) : list ColorVariant :=
  default [] (variants p).

Definition sumZ (l : list Z) : Z := foldr Z.add 0 l.
Global Arguments sumZ : simpl never.

(** Every SizeVariant of every ColorVariant, in document order. *)
Definition all_sizes (p : Doc) : list SizeVariant :=
  mjoin (sizes <$> variants_of p).

(** Every SizeVariant's stock is at least zero. *)
Definition stock_nonneg (p : Doc) : Prop :=
  Forall (λ cv, Forall (λ sv, 0 ≤ stock sv) (sizes cv)) (variants_of p).

Global Instance stock_nonneg_dec p : Decision (stock_nonneg p).
Proof. unfold stock_nonneg. apply _. Defined.

(** The (color, size) slot an update addresses: the first ColorVariant with
    that color, and in it the first SizeVariant with that size. *)
Definition slot (p : Doc) (clr : string) (sz : Size) : option SizeVariant :=
  cv ← snd <$> list_find (λ v, color v = clr) (variants_of p);
  snd <$> list_find (λ s, strict_eq (size s) sz) (sizes cv).

(** Stock of the addressed slot before a delta; 0 for a slot that does not
    exist yet. *)
Definition slot_stock (p : Doc) (clr : string) (sz : Size) : Z :=
  from_option stock 0 (slot p clr sz).

(** One [updateStock] call. *)
Record Call : Type := mkCall {
  call_color : string;
  call_size : Size;
  call_quantity : Z
}.

Definition call (c : Call) : M Doc :=
  updateStock (call_color c) (call_size c) (call_quantity c).

(** The outcome and the store after each call of a sequence, in order. *)
Fixpoint run (calls : list Call) (w : World)
    : list (Js.Completion Doc * World) :=
  match calls with
  | [] => []
  | c :: rest => let r := call c w in r :: run rest (snd r)
  end.

Definition world_nonneg (w : World) : Prop :=
  stock_nonneg (this w) ∧ stock_nonneg (stored w).

(** What a call leaves behind is sound: a returned document and both
    copies of the product have no negative stock. *)
Definition outcome_nonneg (r : Js.Completion Doc * World) : Prop :=
  match fst r with
  | Js.Normal d => stock_nonneg d
  | Js.Throw _ => True
  end ∧ world_nonneg (snd r).

(** Stock of the first SizeVariant of one color that carries the size. *)
Definition first_stock (sz : Size) (cv : ColorVariant) : Z :=
  from_option (stock ∘ snd) 0
    (list_find (λ s, strict_eq (size s) sz) (sizes cv)).

(** The variants a call leaves in memory, whatever its outcome.  A color
    that is not there is added last, trimmed, without sizes; a size that is
    not there is added last to its color with stock 0; the stock of a slot
    that is there moves by the quantity unless that would make it
    negative. *)
Definition after_call (clr : string) (sz : Size) (q : Z)
    (vs : list ColorVariant) : list ColorVariant :=
  match list_find (λ v, color v = clr) vs with
  | None => vs ++ [mkColorVariant (Js.trim clr) [] (Some [])]
  | Some (i, cv) =>
      match list_find (λ s, strict_eq (size s) sz) (sizes cv) with
      | None =>
          <[i := mkColorVariant (color cv) (sizes cv ++ [mkSizeVariant sz 0])
                   (images cv)]> vs
      | Some (j, sv) =>
          if stock sv + q <? 0 then vs
          else
            <[i := mkColorVariant (color cv)
                     (<[j := mkSizeVariant (size sv) (stock sv + q)]> (sizes cv))
                     (images cv)]> vs
      end
  end.

(** The part of a quantity that reaches the document: all of it when the
    slot is there and its stock allows it, none of it otherwise. *)
Definition applied (p : Doc) (clr : string) (sz : Size) (q : Z) : Z :=
  match slot p clr sz with
  | Some sv => if stock sv + q <? 0 then 0 else q
  | None => 0
  end.

(** Sum of stock over every SizeVariant, across all colors, whose size is
    exactly [sz]. *)
Definition matching_stock (p : Doc) (sz : Size) : Z :=
  sumZ (stock <$> filter (λ sv, size sv = sz) (all_sizes p)).

(** Sizes are unique within each color (the schema's validator on
    [sizes]). *)
Definition sizes_unique (p : Doc) : Prop :=
  Forall (λ cv, NoDup (size <$> sizes cv)) (variants_of p).

Global Instance sizes_unique_dec p : Decision (sizes_unique p).
Proof. unfold sizes_unique. apply _. Defined.






(** One triple handled on its own: the single-delta primitive is invoked
    and its outcome goes to the successes or to the failures. *)
Definition attempt (l : ProductController.Log) (t : string * Z * Z)
    : M ProductController.Log :=
  λ w, match updateStock t.1.1 (NumSize t.1.2) t.2 w with
       | (Js.Normal _, w') =>
           (Js.Normal (ProductController.push_update l
              (ProductController.update_line t.1.1 t.1.2 t.2)), w')
       | (Js.Throw e, w') =>
           (Js.Normal (ProductController.push_error l
              (ProductController.error_line t.1.1 t.1.2 e)), w')
       end.



(** A group of a bulk request whose fields all have the types the bulk
    loop accepts: a color string and numeric (size, quantity) pairs. *)
Record Group : Type := mkGroup {
  group_color : string;
  group_sizes : list (Z * Z)
}.

Definition to_variant (g : Group) : ProductController.VariantUpdate :=
  ProductController.mkVariantUpdate
    (ProductController.JStr (group_color g))
    (Some ((λ sq, ProductController.mkSizeUpdate
                    (ProductController.JNum sq.1)
                    (ProductController.JNum sq.2)) <$> group_sizes g)).

(** The (color, size, quantity) triples of a request, in input order. *)
Definition triples (gs : list Group) : list (string * Z * Z) :=
  g ← gs; (λ sq, (group_color g, sq.1, sq.2)) <$> group_sizes g.

(** Sum of stock within one color. *)
Definition color_total (cv : ColorVariant) : Z := sumZ (stock <$> sizes cv).

(** One ColorVariant passes what [colorSchema] and [sizeSchema] declare:
    a color that is not empty, the [sizes] validator, and for each entry
    the [size] validator and the minimum of [stock]. *)
Definition color_ok (cv : ColorVariant) : Prop :=
  color cv ≠ EmptyString
  ∧ sizes_validator (sizes cv) = true
  ∧ Forall (λ sv, size_validator (size sv) = true ∧ 0 ≤ stock sv) (sizes cv).

(** The [variants] tree passes validation: it is there, it is not empty
    and every color passes. *)
Definition schema_ok (p : Doc) : Prop :=
  ∃ vs, variants p = Some vs ∧ vs ≠ [] ∧ Forall color_ok vs.

(** The [size] field of a request body as a size, when it is a number or a
    string. *)
Definition to_size (v : ProductController.JsVal) : option Size :=
  match v with
  | ProductController.JNum n => Some (NumSize n)
  | ProductController.JStr s => Some (StrSize s)
  | _ => None
  end.

(** No two hyphens next to each other. *)
Fixpoint single_hyphens (l : list Ascii.ascii) : bool :=
  match l with
  | [] => true
  | c :: rest =>
      negb (Brand.is_hyphen c && from_option Brand.is_hyphen false (head rest))
      && single_hyphens rest
  end.

(** Lower-case letters, digits and single hyphens, with no hyphen at
    either end. *)
Definition tidy_slug (l : list Ascii.ascii) : bool :=
  forallb (λ c, Brand.is_alnum c || Brand.is_hyphen c) l
  && single_hyphens l
  && negb (from_option Brand.is_hyphen false (head l))
  && negb (from_option Brand.is_hyphen false (last l)).

End Spec.

(** ** Properties of the store primitives *)

Section primitives.
Import Product.

Lemma or_zero_id n : Js.or_zero n = n.
Proof. unfold Js.or_zero. destruct (Z.eqb_spec n 0); lia. Qed.

Lemma strict_eq_spec a b : strict_eq a b = true ↔ a = b.
Proof.
  destruct a as [m|s], b as [n|t]; simpl.
  - rewrite Z.eqb_eq. split; [intros ->|intros [= ->]]; done.
  - split; [done|intros [=]].
  - split; [done|intros [=]].
  - rewrite String.eqb_eq. split; [intros ->|intros [= ->]]; done.
Qed.

Lemma strict_eq_true a b : strict_eq a b ↔ a = b.
Proof. rewrite <- strict_eq_spec. apply Is_true_true. Qed.

Lemma bind_eq {S A B} (m : Js.M S A) (k : A → Js.M S B) s :
  (m ≫= k) s =
    match m s with
    | (Js.Normal a, s') => k a s'
    | (Js.Throw e, s') => (Js.Throw e, s')
    end.
Proof. reflexivity. Qed.

Variables (vs : list ColorVariant) (st : Doc).
Let w := mkWorld (mkDoc (Some vs)) st.

Lemma get_variants_eq : get_variants w = (Js.Normal vs, w).
Proof. reflexivity. Qed.

Lemma get_color_eq ci cv :
  vs !! ci = Some cv → get_color ci w = (Js.Normal cv, w).
Proof. intros H. unfold get_color. rewrite bind_eq; simpl. by rewrite H. Qed.

Lemma set_sizes_eq ci cv szs :
  vs !! ci = Some cv →
  set_sizes ci szs w =
    (Js.Normal (),
     mkWorld
       (mkDoc (Some (<[ci := mkColorVariant (color cv) szs (images cv)]> vs)))
       st).
Proof.
  intros H. unfold set_sizes. rewrite bind_eq, get_variants_eq.
  rewrite bind_eq, (get_color_eq _ _ H). reflexivity.
Qed.

Lemma get_size_eq ci cv si sv :
  vs !! ci = Some cv → sizes cv !! si = Some sv →
  get_size ci si w = (Js.Normal sv, w).
Proof.
  intros H1 H2. unfold get_size. rewrite bind_eq, (get_color_eq _ _ H1).
  by rewrite H2.
Qed.

Lemma set_stock_eq ci cv si sv n :
  vs !! ci = Some cv → sizes cv !! si = Some sv →
  set_stock ci si n w =
    (Js.Normal (),
     mkWorld
       (mkDoc (Some (<[ci := mkColorVariant (color cv)
                        (<[si := mkSizeVariant (size sv) n]> (sizes cv))
                        (images cv)]> vs)))
       st).
Proof.
  intros H1 H2. unfold set_stock.
  rewrite bind_eq, (get_color_eq _ _ H1).
  rewrite bind_eq, (get_size_eq _ _ _ _ H1 H2).
  by rewrite (set_sizes_eq _ _ _ H1).
Qed.

End primitives.

(** ** The three paths through [updateStock] *)

Section updateStock_paths.
Import Product Spec.

Variables (w : World) (clr : string) (sz : Size) (quantity : Z).
Let vs := variants_of (this w).

(** No ColorVariant carries the color: the document gets the cast copy of
    the new color, and the size and the stock go to the plain object. *)
Lemma updateStock_new_color :
  list_find (λ v, color v = clr) vs = None →
  updateStock clr sz quantity w =
    let w' :=
      mkWorld (mkDoc (Some (vs ++ [mkColorVariant (Js.trim clr) [] (Some [])])))
        (stored w) in
    if quantity <? 0 then
      (Js.Throw (insufficient_stock clr sz 0 quantity), w')
    else save w'.
Proof.
  subst vs. destruct w as [[vo] st]. unfold variants_of; simpl. intros Hc.
  unfold updateStock. rewrite bind_eq; simpl.
  assert (Hinit :
    (if vo is None then set_variants [] else Js.ret ())
      (mkWorld (mkDoc vo) st)
    = (Js.Normal (), mkWorld (mkDoc (Some (default [] vo))) st))
    by (by destruct vo).
  rewrite bind_eq, Hinit. clear Hinit.
  set (l := default [] vo) in *.
  rewrite bind_eq, get_variants_eq. rewrite Hc.
  rewrite bind_eq. rewrite bind_eq. simpl.
  rewrite bind_eq. simpl. rewrite bind_eq. simpl.
  change (Js.or_zero 0) with 0. rewrite Z.add_0_l.
  destruct (quantity <? 0); [done|].
  rewrite bind_eq. reflexivity.
Qed.

(** The color exists, the size does not: the document gets the new size
    with stock 0, and the stock goes to the plain object. *)
Lemma updateStock_new_size i cv :
  list_find (λ v, color v = clr) vs = Some (i, cv) →
  list_find (λ s, strict_eq (size s) sz) (sizes cv) = None →
  updateStock clr sz quantity w =
    let w' :=
      mkWorld
        (mkDoc (Some (<[i := mkColorVariant (color cv)
                         (sizes cv ++ [mkSizeVariant sz 0]) (images cv)]> vs)))
        (stored w) in
    if quantity <? 0 then
      (Js.Throw (insufficient_stock clr sz 0 quantity), w')
    else save w'.
Proof.
  subst vs. destruct w as [[vo] st]. unfold variants_of; simpl.
  intros Hc Hs.
  destruct vo as [l|]; [|done]. simpl in *.
  pose proof Hc as (Hi & _ & _)%list_find_Some.
  unfold updateStock. rewrite bind_eq; simpl.
  rewrite bind_eq; simpl.
  rewrite bind_eq, get_variants_eq. rewrite Hc.
  rewrite bind_eq; simpl.
  rewrite bind_eq. rewrite bind_eq, (get_color_eq _ _ _ _ Hi). rewrite Hs.
  rewrite bind_eq, (set_sizes_eq _ _ _ _ _ Hi). simpl.
  rewrite bind_eq. simpl.
  change (Js.or_zero 0) with 0. rewrite Z.add_0_l.
  destruct (quantity <? 0); [done|].
  rewrite bind_eq. reflexivity.
Qed.

(** Both the color and the size exist: the stock of the subdocument is
    written. *)
Lemma updateStock_existing i cv j sv :
  list_find (λ v, color v = clr) vs = Some (i, cv) →
  list_find (λ s, strict_eq (size s) sz) (sizes cv) = Some (j, sv) →
  updateStock clr sz quantity w =
    if stock sv + quantity <? 0 then
      (Js.Throw (insufficient_stock clr sz (stock sv) quantity), w)
    else
      save
        (mkWorld
           (mkDoc (Some (<[i := mkColorVariant (color cv)
                            (<[j := mkSizeVariant (size sv) (stock sv + quantity)]>
                               (sizes cv))
                            (images cv)]> vs)))
           (stored w)).
Proof.
  subst vs. destruct w as [[vo] st]. unfold variants_of; simpl.
  intros Hc Hs.
  destruct vo as [l|]; [|done]. simpl in *.
  pose proof Hc as (Hi & _ & _)%list_find_Some.
  pose proof Hs as (Hj & _ & _)%list_find_Some.
  unfold updateStock. rewrite bind_eq; simpl.
  rewrite bind_eq; simpl.
  rewrite bind_eq, get_variants_eq. rewrite Hc.
  rewrite bind_eq; simpl.
  rewrite bind_eq. rewrite bind_eq, (get_color_eq _ _ _ _ Hi). rewrite Hs.
  simpl.
  rewrite bind_eq, (get_size_eq _ _ _ _ _ _ Hi Hj). simpl.
  rewrite or_zero_id.
  destruct (stock sv + quantity <? 0); [done|].
  rewrite bind_eq, (set_stock_eq _ _ _ _ _ _ _ Hi Hj). reflexivity.
Qed.

End updateStock_paths.

(** ** A value read at the first match of a linear scan *)

Section first_match.
Context {A : Type} (P : A → Prop) `{!∀ x, Decision (P x)} (f : A → Z).

Local Abbreviation at_first l := (from_option (f ∘ snd) 0 (list_find P l)).

Lemma at_first_cons x l :
  at_first (x :: l) = if decide (P x) then f x else at_first l.
Proof.
  csimpl. case_decide; [done|]. by destruct (list_find P l) as [[j y]|].
Qed.

(** Replacing an element by one that the scan treats alike. *)
Lemma at_first_insert l : ∀ i x y,
  l !! i = Some x → (P x ↔ P y) → (P x → f x = f y) →
  at_first (<[i:=y]> l) = at_first l.
Proof.
  induction l as [|z l IH]; intros i x y Hi HP Hf; [done|].
  destruct i as [|i]; simpl in Hi.
  - injection Hi as ->. change (<[0%nat:=y]> (x :: l)) with (y :: l).
    rewrite !at_first_cons.
    destruct (decide (P x)) as [Hx|Hx].
    + rewrite decide_True by tauto. symmetry; auto.
    + rewrite decide_False by tauto. done.
  - change (<[S i:=y]> (z :: l)) with (z :: <[i:=y]> l).
    rewrite !at_first_cons. by rewrite (IH i x y).
Qed.

(** Appending an element that reads as 0 whenever the scan reaches it. *)
Lemma at_first_snoc l y :
  (P y → list_find P l = None → f y = 0) →
  at_first (l ++ [y]) = at_first l.
Proof.
  induction l as [|z l IH]; intros Hy.
  - change ([] ++ [y]) with [y]. rewrite at_first_cons.
    case_decide; [|done]. by apply Hy.
  - change ((z :: l) ++ [y]) with (z :: (l ++ [y])).
    rewrite !at_first_cons. case_decide; [done|].
    apply IH. intros Hp Hnone. apply Hy; [done|].
    csimpl. rewrite decide_False by done. by rewrite Hnone.
Qed.

Lemma find_insert_found l i x y :
  list_find P l = Some (i, x) → P y →
  list_find P (<[i:=y]> l) = Some (i, y).
Proof.
  intros (Hi & Hx & Hlt)%list_find_Some Hy. apply list_find_Some.
  split_and!; [|done|].
  - apply list_lookup_insert_eq. by eapply lookup_lt_Some.
  - intros j z Hj Hji. rewrite list_lookup_insert_ne in Hj by lia. eauto.
Qed.

End first_match.

(** ** Validators and the in-stock helper *)

Section validators.
Import Product Spec.

Lemma hasStock_sizes_scan l : ProductController.hasStock_sizes l = scan_sizes l.
Proof. induction l as [|sv l IH]; simpl; [done|]. by rewrite IH. Qed.

Lemma hasStock_variants_scan vs :
  ProductController.hasStock_variants vs = scan_variants vs.
Proof.
  induction vs as [|v vs IH]; simpl; [done|].
  rewrite IH, hasStock_sizes_scan. by destruct (sizes v).
Qed.

Lemma hasStock_inStock p : ProductController.hasStock (variants p) = inStock p.
Proof.
  destruct p as [[vs|]]; [|done]. unfold ProductController.hasStock, inStock.
  simpl. by rewrite hasStock_variants_scan.
Qed.

(** X1. The controller's [hasStock] helper and the model's [inStock] virtual
    answer alike on every product, absent or empty variants included. *)
Theorem hasStock_agrees_with_inStock (p : Doc) :
  ProductController.hasStock (variants p) = inStock p.
Proof. apply hasStock_inStock. Qed.

Lemma length_remove_dups_le {A} `{EqDecision A} (l : list A) :
  (length (remove_dups l) ≤ length l)%nat.
Proof.
  induction l as [|x l IH]; simpl; [done|].
  destruct (decide_rel elem_of x l); simpl; lia.
Qed.

Lemma set_size_full {A} `{EqDecision A} (l : list A) :
  length l = Js.set_size l ↔ NoDup l.
Proof.
  unfold Js.set_size. induction l as [|x l IH]; simpl.
  - split; [constructor|done].
  - rewrite NoDup_cons. pose proof (length_remove_dups_le l).
    destruct (decide_rel elem_of x l) as [Hin|Hin]; simpl.
    + split; [lia|]. by intros [? _].
    + rewrite <- IH. split; [intros [=]|intros [_ ->]]; done.
Qed.

Lemma sizes_validator_spec (v : list SizeVariant) :
  sizes_validator v = true ↔ v ≠ [] ∧ NoDup (size <$> v).
Proof.
  unfold sizes_validator. destruct v as [|sv v]; [by split; [|intros []]|].
  change (length (sv :: v) =? 0)%nat with false. cbv iota zeta.
  rewrite Nat.eqb_eq, set_size_full. by split; [|intros []].
Qed.

(** X2. The [sizes] validator accepts exactly the non-empty arrays in which
    no two entries have the same size (a number and a string never being
    the same). *)
Theorem sizes_validator_iff (v : list SizeVariant) :
  sizes_validator v = true ↔ v ≠ [] ∧ NoDup (size <$> v).
Proof. apply sizes_validator_spec. Qed.

Lemma drop_while_nil {A} (p : A → bool) (l : list A) :
  Js.drop_while p l = [] ↔ Forall (λ x, p x = true) l.
Proof.
  induction l as [|x l IH]; simpl; [by split; [constructor|]|].
  destruct (p x) eqn:Hx.
  - rewrite IH. split; [by constructor|by inversion 1].
  - split; [done|]. inversion 1; congruence.
Qed.

Lemma drop_while_forall {A} (p : A → bool) (Q : A → Prop) (l : list A) :
  Forall Q l → Forall Q (Js.drop_while p l).
Proof.
  induction 1 as [|x l Hx Hl IH]; simpl; [constructor|].
  destruct (p x); [done|by constructor].
Qed.

Lemma drop_end_nil {A} (p : A → bool) (l : list A) :
  Js.drop_end p l = [] ↔ Forall (λ x, p x = true) l.
Proof.
  unfold Js.drop_end.
  rewrite <- (reverse_involutive l) at 2. rewrite Forall_reverse.
  rewrite <- drop_while_nil. split; [|by intros ->].
  intros H. by rewrite <- (reverse_involutive (Js.drop_while _ _)), H.
Qed.

Lemma drop_while_idem {A} (p : A → bool) (l : list A) :
  Js.drop_while p (Js.drop_while p l) = Js.drop_while p l.
Proof.
  induction l as [|x l IH]; simpl; [done|].
  destruct (p x) eqn:Hx; [done|]. simpl. by rewrite Hx.
Qed.

Lemma trim_chars_nil l :
  Js.trim_chars l = [] ↔ Forall (λ c, Js.is_whitespace c = true) l.
Proof.
  unfold Js.trim_chars. rewrite drop_end_nil. split.
  - intros H%drop_while_nil. rewrite drop_while_idem in H.
    by apply drop_while_nil.
  - intros H. by apply drop_while_forall.
Qed.

Lemma length_of_chars l : String.length (Js.of_chars l) = length l.
Proof. induction l as [|c l IH]; simpl; [done|]. by rewrite IH. Qed.

Lemma exists_false_forall {A} (p : A → bool) (l : list A) :
  Exists (λ x, p x = false) l ↔ ¬ Forall (λ x, p x = true) l.
Proof.
  induction l as [|x l IH].
  - split; [by inversion 1|]. intros H. destruct H. constructor.
  - rewrite Exists_cons, Forall_cons, IH. destruct (p x); split.
    + intros [?|?] [_ ?]; done.
    + intros H. right. intros ?. by apply H.
    + intros _ [? _]. done.
    + by left.
Qed.

(** X3. What the [size] validator accepts.  An integer size passes exactly
    when it lies between 1 and 50 (the validator compares only, it has no
    test of its own that the number is an integer).  A string size passes
    exactly when it has at most 10 code units, counted before trimming, of
    which at least one is not whitespace. *)
Theorem size_validator_iff (v : Size) :
  size_validator v = true ↔
    match v with
    | NumSize n => 1 ≤ n ≤ 50
    | StrSize s =>
        (String.length s ≤ 10)%nat
        ∧ Exists (λ c, Js.is_whitespace c = false) (Js.chars s)
    end.
Proof.
  destruct v as [n|s]; simpl.
  - rewrite andb_true_iff, !Z.leb_le. done.
  - rewrite andb_true_iff, Nat.leb_le, Nat.ltb_lt.
    unfold Js.trim. rewrite length_of_chars, exists_false_forall.
    rewrite <- trim_chars_nil.
    destruct (Js.trim_chars (Js.chars s)); simpl; split;
      intros [? ?]; split; try done; lia.
Qed.

(** *** What [save] validates *)

Lemma mjoin_imap_nil {A B} (P : A → Prop) (l : list A) :
  ∀ f : nat → A → list B,
  (∀ i x, f i x = [] ↔ P x) → mjoin (imap f l) = [] ↔ Forall P l.
Proof.
  induction l as [|x l IH]; intros f Hf; csimpl.
  - split; [constructor|done].
  - rewrite app_nil, Forall_cons, Hf. rewrite (IH (f ∘ S)); [done|].
    intros i y. apply Hf.
Qed.

Lemma size_errors_nil path sv :
  size_errors path sv = [] ↔ size_validator (size sv) = true ∧ 0 ≤ stock sv.
Proof.
  unfold size_errors, stock_min. rewrite app_nil.
  destruct (size_validator (size sv)), (Z.leb_spec 0 (stock sv));
    split; intros [? ?]; split; try done; lia.
Qed.

Lemma color_errors_nil path cv : color_errors path cv = [] ↔ color_ok cv.
Proof.
  unfold color_errors, color_ok. rewrite !app_nil.
  rewrite (mjoin_imap_nil
    (λ sv, size_validator (size sv) = true ∧ 0 ≤ stock sv))
    by (intros; apply size_errors_nil).
  destruct (String.eqb_spec (color cv) EmptyString) as [->|Hne],
    (sizes_validator (sizes cv)); split; intros (? & ? & ?); done.
Qed.

Lemma validation_errors_nil p : validation_errors p = [] ↔ schema_ok p.
Proof.
  unfold validation_errors, schema_ok. destruct p as [[vs|]]; simpl.
  - rewrite app_nil.
    rewrite (mjoin_imap_nil color_ok) by (intros; apply color_errors_nil).
    destruct vs as [|v vs]; simpl.
    + split; [by intros [? _]|]. by intros (? & [= <-] & ? & _).
    + split.
      * intros [_ ?]. by eexists.
      * by intros (? & [= <-] & _ & ?).
  - split; [done|]. by intros (? & ? & _).
Qed.

Lemma save_cases w :
  (schema_ok (this w)
   ∧ save w = (Js.Normal (this w), mkWorld (this w) (this w)))
  ∨ (¬ schema_ok (this w)
     ∧ save w
       = (Js.Throw (validation_failed (validation_errors (this w))), w)).
Proof.
  unfold save. rewrite <- validation_errors_nil.
  destruct (validation_errors (this w)); [by left|by right].
Qed.

Lemma color_ok_sizes cv : color_ok cv → sizes cv ≠ [].
Proof. intros (_ & Hv%sizes_validator_spec & _). by destruct Hv. Qed.

End validators.

(** ** The queries: totals, stock by size, availability *)

Section queries.
Import Product Spec.

(** *** Aggregates *)

Lemma sumZ_cons x l : sumZ (x :: l) = x + sumZ l.
Proof. reflexivity. Qed.

Lemma sumZ_app l1 l2 : sumZ (l1 ++ l2) = sumZ l1 + sumZ l2.
Proof.
  induction l1 as [|x l1 IH]; csimpl; [done|]. rewrite !sumZ_cons, IH. lia.
Qed.

Lemma total_inner_loop (l : list SizeVariant) : ∀ total,
  fold_left (λ total sizeVariant, total + Js.or_zero (stock sizeVariant))
    l total
  = total + sumZ (stock <$> l).
Proof.
  induction l as [|sv l IH]; intros total; csimpl; [change (sumZ []) with 0; lia|].
  rewrite IH, or_zero_id, sumZ_cons. lia.
Qed.

Lemma total_outer_loop (vs : list ColorVariant) : ∀ total,
  fold_left (λ total variant,
    if (0 <? length (sizes variant))%nat then
      fold_left (λ total sizeVariant, total + Js.or_zero (stock sizeVariant))
        (sizes variant) total
    else total) vs total
  = total + sumZ (stock <$> mjoin (sizes <$> vs)).
Proof.
  induction vs as [|v vs IH]; intros total; csimpl;
    [change (sumZ []) with 0; lia|].
  rewrite IH, fmap_app, sumZ_app.
  destruct (sizes v) as [|sv l] eqn:Hv; csimpl;
    [change (sumZ []) with 0; lia|].
  rewrite total_inner_loop, or_zero_id, sumZ_cons. lia.
Qed.

(** C4. [totalStock] is the sum of [stock] over every SizeVariant of every
    ColorVariant, and it is 0 when [variants] is absent or empty. *)
Theorem totalStock_is_sum (p : Doc) :
  totalStock p = sumZ (stock <$> all_sizes p)
  ∧ totalStock (mkDoc None) = 0
  ∧ totalStock (mkDoc (Some [])) = 0.
Proof.
  split_and!; [|done..].
  destruct p as [[vs|]]; [|done].
  unfold totalStock, all_sizes, variants_of; simpl.
  destruct vs as [|v vs]; [done|].
  change (length (v :: vs) =? 0)%nat with false; cbv iota.
  by rewrite total_outer_loop.
Qed.

Lemma scan_sizes_spec (l : list SizeVariant) :
  scan_sizes l = true ↔ ∃ sv, sv ∈ l ∧ 0 < stock sv.
Proof.
  induction l as [|sv l IH]; simpl.
  - split; [done|]. by intros (? & ?%elem_of_nil & _).
  - destruct (Z.ltb_spec 0 (stock sv)) as [Hpos|Hle].
    + split; [|done]. intros _. exists sv. split; [left|done].
    + rewrite IH. split.
      * intros (x & Hx & ?). exists x. split; [by right|done].
      * intros (x & [->|Hx]%elem_of_cons & ?); [lia|]. by exists x.
Qed.

Lemma scan_variants_spec (vs : list ColorVariant) :
  scan_variants vs = true ↔
  ∃ cv sv, cv ∈ vs ∧ sv ∈ sizes cv ∧ 0 < stock sv.
Proof.
  induction vs as [|v vs IH]; simpl.
  - split; [done|]. by intros (? & ? & ?%elem_of_nil & _).
  - assert (Hguard :
      (0 <? length (sizes v))%nat && scan_sizes (sizes v) = scan_sizes (sizes v))
      by (by destruct (sizes v)).
    rewrite Hguard. destruct (scan_sizes (sizes v)) eqn:Hv.
    + split; [|done]. intros _.
      apply scan_sizes_spec in Hv as (sv & ? & ?).
      exists v, sv. split_and!; [left|done..].
    + rewrite IH. split.
      * intros (cv & sv & ? & ? & ?). exists cv, sv.
        split_and!; [by right|done..].
      * intros (cv & sv & [->|?]%elem_of_cons & Hsv & Hpos).
        -- assert (scan_sizes (sizes v) = true) as Ht
             by (apply scan_sizes_spec; eauto).
           congruence.
        -- by exists cv, sv.
Qed.

(** C6. [inStock] is true exactly when some SizeVariant of some
    ColorVariant has a stock above zero; it is false when [variants] is
    absent or empty. *)
Theorem inStock_iff_some_stock (p : Doc) :
  (inStock p = true ↔
     ∃ cv sv, cv ∈ variants_of p ∧ sv ∈ sizes cv ∧ 0 < stock sv)
  ∧ inStock (mkDoc None) = false
  ∧ inStock (mkDoc (Some [])) = false.
Proof.
  split_and!; [|done..].
  destruct p as [[vs|]]; unfold inStock, variants_of; simpl.
  - destruct vs as [|v vs]; [|apply scan_variants_spec].
    split; [done|]. by intros (? & ? & ?%elem_of_nil & _).
  - split; [done|]. by intros (? & ? & ?%elem_of_nil & _).
Qed.

Lemma bySize_step (sz : Size) (v : ColorVariant) (total : Z) :
  (if (0 <? length (sizes v))%nat then
     match list_find (λ s, strict_eq (size s) sz) (sizes v) with
     | Some (_, sizeVariant) => total + Js.or_zero (stock sizeVariant)
     | None => total
     end
   else total)
  = total + first_stock sz v.
Proof.
  unfold first_stock. destruct (sizes v) as [|sv l]; [simpl; lia|].
  change (0 <? length (sv :: l))%nat with true; cbv iota.
  destruct (list_find _ (sv :: l)) as [[j x]|]; simpl;
    rewrite ?or_zero_id; lia.
Qed.

Lemma bySize_loop (sz : Size) (vs : list ColorVariant) : ∀ total,
  fold_left (λ total variant,
    if (0 <? length (sizes variant))%nat then
      match list_find (λ s, strict_eq (size s) sz) (sizes variant) with
      | Some (_, sizeVariant) => total + Js.or_zero (stock sizeVariant)
      | None => total
      end
    else total) vs total
  = total + sumZ (first_stock sz <$> vs).
Proof.
  induction vs as [|v vs IH]; intros total; csimpl;
    [change (sumZ []) with 0; lia|].
  rewrite IH, bySize_step, sumZ_cons. lia.
Qed.

(** [getStockBySize] adds, color by color, the stock of the first
    SizeVariant that carries the size. *)
Lemma getStockBySize_first_match (p : Doc) (sz : Size) :
  getStockBySize p sz = sumZ (first_stock sz <$> variants_of p).
Proof.
  destruct p as [[vs|]]; [|done].
  unfold getStockBySize, variants_of; simpl.
  destruct vs as [|v vs]; [done|].
  change (length (v :: vs) =? 0)%nat with false; cbv iota.
  by rewrite bySize_loop.
Qed.

Lemma first_stock_unique (sz : Size) (cv : ColorVariant) :
  NoDup (size <$> sizes cv) →
  first_stock sz cv = sumZ (stock <$> filter (λ sv, size sv = sz) (sizes cv)).
Proof.
  unfold first_stock. induction (sizes cv) as [|sv l IH]; [done|].
  rewrite fmap_cons. intros [Hnotin Hnd]%NoDup_cons.
  rewrite filter_cons. simpl.
  destruct (decide (strict_eq (size sv) sz)) as [Heq|Hne].
  - apply strict_eq_true in Heq. rewrite decide_True by done. simpl.
    assert (filter (λ sv0, size sv0 = sz) l = []) as ->.
    { apply elem_of_nil_inv. intros x [Hsz Hx]%list_elem_of_filter.
      apply Hnotin, list_elem_of_fmap. exists x. split; [congruence|done]. }
    rewrite sumZ_cons. change (sumZ _) with 0. lia.
  - rewrite strict_eq_true in Hne. rewrite decide_False by done.
    rewrite <- (IH Hnd).
    by destruct (list_find _ l) as [[j x]|].
Qed.

(** C5 (as amended). For a product whose sizes are unique within each
    color, [getStockBySize] is the sum of [stock] over every SizeVariant,
    across all colors, whose size is exactly the given one. *)
Theorem getStockBySize_unique_sizes (p : Doc) (sz : Size) :
  sizes_unique p → getStockBySize p sz = matching_stock p sz.
Proof.
  intros Hu. rewrite getStockBySize_first_match.
  unfold matching_stock, all_sizes. unfold sizes_unique in Hu.
  induction Hu as [|cv vs Hcv _ IH]; [done|]. csimpl.
  rewrite sumZ_cons, filter_app, fmap_app, sumZ_app, IH.
  by rewrite first_stock_unique.
Qed.

Lemma getStockBySize_unique_sizes_witness :
  getStockBySize
    (mkDoc (Some
       [mkColorVariant "black"
          [mkSizeVariant (NumSize 8) 15; mkSizeVariant (NumSize 9) 10] None;
        mkColorVariant "white"
          [mkSizeVariant (NumSize 8) 12; mkSizeVariant (StrSize "8") 7] None]))
    (NumSize 8)
  = 27.
Proof.
  rewrite getStockBySize_unique_sizes; [reflexivity|].
  apply (bool_decide_unpack _). vm_compute. exact I.
Defined.

(** C5, the claim as stated fails: with the size 8 twice under one color,
    [getStockBySize] counts the first entry only (1), while the sum over
    every matching SizeVariant is 3. *)
Lemma getStockBySize_duplicate_size :
  let p := mkDoc (Some
    [mkColorVariant "black"
       [mkSizeVariant (NumSize 8) 1; mkSizeVariant (NumSize 8) 2] None]) in
  getStockBySize p (NumSize 8) = 1
  ∧ matching_stock p (NumSize 8) = 3
  ∧ (getStockBySize p (NumSize 8) =? matching_stock p (NumSize 8)) = false.
Proof. split_and!; reflexivity. Qed.

(** *** Reading one slot *)

Lemma slot_stock_scan (p : Doc) (c : string) (s : Size) :
  slot_stock p c s =
    from_option (first_stock s ∘ snd) 0
      (list_find (λ v, color v = c) (variants_of p)).
Proof.
  unfold slot_stock, slot, first_stock.
  destruct (list_find _ (variants_of p)) as [[i cv]|]; [|done]. simpl.
  by destruct (list_find _ (sizes cv)) as [[j sv]|].
Qed.

Lemma sumZ_insert (l : list Z) : ∀ i a b,
  l !! i = Some a → sumZ (<[i:=b]> l) = sumZ l + b - a.
Proof.
  induction l as [|x l IH]; intros [|i] a b Hi; simplify_eq/=.
  - rewrite !sumZ_cons. lia.
  - rewrite !sumZ_cons, (IH i a b) by done. lia.
Qed.

End queries.

(** ** One call of [updateStock] *)

Section one_call.
Import Product Spec.

Lemma variants_of_Some l : variants_of (mkDoc (Some l)) = l.
Proof. reflexivity. Qed.

Lemma found_variants (p : Doc) (P : ColorVariant → Prop)
    `{!∀ x, Decision (P x)} r :
  list_find P (variants_of p) = Some r → p = mkDoc (Some (variants_of p)).
Proof. destruct p as [[l|]]; [done|]. by unfold variants_of. Qed.

(** The outcome of a call in one equation.  The in-memory product is left
    as [after_call] says; the call throws when the stock of the addressed
    slot (0 when it is not there) plus the quantity is negative, and hands
    over to [save] otherwise. *)
Lemma updateStock_outcome (w : World) (clr : string) (sz : Size) (q : Z) :
  let cur := slot_stock (this w) clr sz in
  let w' :=
    mkWorld (mkDoc (Some (after_call clr sz q (variants_of (this w)))))
      (stored w) in
  updateStock clr sz q w =
    if cur + q <? 0 then (Js.Throw (insufficient_stock clr sz cur q), w')
    else save w'.
Proof.
  unfold slot_stock, slot, after_call.
  destruct (list_find (λ v, color v = clr) (variants_of (this w)))
    as [[i cv]|] eqn:Hc; simpl.
  - destruct (list_find (λ s, strict_eq (size s) sz) (sizes cv))
      as [[j sv]|] eqn:Hs; simpl.
    + rewrite (updateStock_existing _ _ _ _ _ _ _ _ Hc Hs).
      destruct (stock sv + q <? 0); [|done].
      rewrite <- (found_variants _ _ _ Hc). by destruct w.
    + by rewrite (updateStock_new_size _ _ _ _ _ _ Hc Hs).
  - by rewrite (updateStock_new_color _ _ _ _ Hc).
Qed.

(** The same, outcome by outcome. *)
Lemma updateStock_cases (w : World) (clr : string) (sz : Size) (q : Z) :
  let cur := slot_stock (this w) clr sz in
  let d := mkDoc (Some (after_call clr sz q (variants_of (this w)))) in
  (cur + q < 0
   ∧ updateStock clr sz q w
     = (Js.Throw (insufficient_stock clr sz cur q), mkWorld d (stored w)))
  ∨ (0 ≤ cur + q ∧ ¬ schema_ok d
     ∧ updateStock clr sz q w
       = (Js.Throw (validation_failed (validation_errors d)),
          mkWorld d (stored w)))
  ∨ (0 ≤ cur + q ∧ schema_ok d
     ∧ updateStock clr sz q w = (Js.Normal d, mkWorld d d)).
Proof.
  intros cur d. rewrite updateStock_outcome. fold cur d.
  destruct (Z.ltb_spec (cur + q) 0) as [Hq|Hq]; [by left|right].
  destruct (save_cases (mkWorld d (stored w))) as [[? ->]|[? ->]];
    [right|left]; done.
Qed.

Lemma updateStock_this (w : World) (clr : string) (sz : Size) (q : Z) :
  this (updateStock clr sz q w).2
  = mkDoc (Some (after_call clr sz q (variants_of (this w)))).
Proof.
  destruct (updateStock_cases w clr sz q)
    as [(_ & ->)|[(_ & _ & ->)|(_ & _ & ->)]]; done.
Qed.

Lemma updateStock_variants (w : World) (clr : string) (sz : Size) (q : Z) :
  variants_of (this (updateStock clr sz q w).2)
  = after_call clr sz q (variants_of (this w)).
Proof. by rewrite updateStock_this. Qed.



(** *** What [after_call] keeps *)

Lemma after_call_nonneg clr sz q vs :
  Forall (λ cv, Forall (λ sv, 0 ≤ stock sv) (sizes cv)) vs →
  Forall (λ cv, Forall (λ sv, 0 ≤ stock sv) (sizes cv)) (after_call clr sz q vs).
Proof.
  intros Hvs. unfold after_call.
  destruct (list_find (λ v, color v = clr) vs) as [[i cv]|] eqn:Hc.
  - apply list_find_Some in Hc as (Hi & _ & _).
    pose proof (Forall_lookup_1 _ _ _ _ Hvs Hi) as Hcv.
    destruct (list_find _ (sizes cv)) as [[j sv]|] eqn:Hs.
    + destruct (Z.ltb_spec (stock sv + q) 0); [done|].
      apply Forall_insert; [done|]. simpl. by apply Forall_insert.
    + apply Forall_insert; [done|]. simpl.
      apply Forall_app. split; [done|]. by repeat constructor.
  - apply Forall_app. split; [done|]. by repeat constructor.
Qed.

Lemma first_stock_snoc s cv sz :
  first_stock s
    (mkColorVariant (color cv) (sizes cv ++ [mkSizeVariant sz 0]) (images cv))
  = first_stock s cv.
Proof. unfold first_stock; simpl. by apply at_first_snoc. Qed.

Lemma first_stock_insert_other s cv j sv n :
  sizes cv !! j = Some sv → size sv ≠ s →
  first_stock s
    (mkColorVariant (color cv) (<[j := mkSizeVariant (size sv) n]> (sizes cv))
       (images cv))
  = first_stock s cv.
Proof.
  intros Hj Hne. unfold first_stock; simpl.
  apply (at_first_insert _ _ _ j sv); [done|done|].
  by intros Hx%strict_eq_true.
Qed.

Lemma first_stock_insert_same sz cv j sv n :
  list_find (λ s, strict_eq (size s) sz) (sizes cv) = Some (j, sv) →
  first_stock sz
    (mkColorVariant (color cv) (<[j := mkSizeVariant (size sv) n]> (sizes cv))
       (images cv))
  = n.
Proof.
  intros Hs. unfold first_stock; simpl.
  pose proof Hs as (_ & Hsv & _)%list_find_Some.
  by rewrite (find_insert_found _ _ _ _ (mkSizeVariant (size sv) n) Hs).
Qed.

Lemma first_stock_found sz cv j sv :
  list_find (λ s, strict_eq (size s) sz) (sizes cv) = Some (j, sv) →
  first_stock sz cv = stock sv.
Proof. unfold first_stock. by intros ->. Qed.

(** The first-match stock of every color and size after a call: only the
    addressed slot moves, and only by what was applied. *)
Lemma after_call_slot_stock clr sz q vs c s :
  slot_stock (mkDoc (Some (after_call clr sz q vs))) c s
  = slot_stock (mkDoc (Some vs)) c s
    + (if decide (c = clr ∧ s = sz) then applied (mkDoc (Some vs)) clr sz q
       else 0).
Proof.
  unfold applied, slot. rewrite !slot_stock_scan, !variants_of_Some.
  unfold after_call.
  destruct (list_find (λ v, color v = clr) vs) as [[i cv]|] eqn:Hc; simpl.
  - pose proof Hc as (Hi & Hcv & _)%list_find_Some.
    destruct (list_find (λ x, strict_eq (size x) sz) (sizes cv))
      as [[j sv]|] eqn:Hs; simpl.
    + pose proof Hs as (Hj & Hsv%strict_eq_true & _)%list_find_Some.
      destruct (Z.ltb_spec (stock sv + q) 0) as [Hq|Hq];
        [case_decide; lia|].
      destruct (decide (c = clr ∧ s = sz)) as [[-> ->]|Hne].
      * rewrite (find_insert_found _ _ _ _
                   (mkColorVariant (color cv)
                      (<[j:=mkSizeVariant (size sv) (stock sv + q)]> (sizes cv))
                      (images cv)) Hc) by done.
        rewrite Hc. simpl.
        rewrite (first_stock_insert_same _ _ _ _ _ Hs).
        rewrite (first_stock_found _ _ _ _ Hs). lia.
      * rewrite Z.add_0_r.
        apply (at_first_insert _ _ _ i cv); [done|done|].
        intros Hcc. simpl. symmetry. apply first_stock_insert_other; [done|].
        intros Heq. apply Hne. split; congruence.
    + assert (at_first : ∀ c0,
        from_option (first_stock s ∘ snd) 0
          (list_find (λ v, color v = c0)
             (<[i:=mkColorVariant (color cv) (sizes cv ++ [mkSizeVariant sz 0])
                     (images cv)]> vs))
        = from_option (first_stock s ∘ snd) 0
            (list_find (λ v, color v = c0) vs)).
      { intros c0. apply (at_first_insert _ _ _ i cv); [done|done|].
        intros _. simpl. symmetry. apply first_stock_snoc. }
      rewrite at_first. case_decide; lia.
  - assert (from_option (first_stock s ∘ snd) 0
              (list_find (λ v, color v = c)
                 (vs ++ [mkColorVariant (Js.trim clr) [] (Some [])]))
            = from_option (first_stock s ∘ snd) 0
                (list_find (λ v, color v = c) vs)) as ->.
    { by apply at_first_snoc. }
    case_decide; lia.
Qed.

(** [getStockBySize] after a call. *)
Lemma after_call_bySize clr sz q vs s :
  sumZ (first_stock s <$> after_call clr sz q vs)
  = sumZ (first_stock s <$> vs)
    + (if decide (s = sz) then applied (mkDoc (Some vs)) clr sz q else 0).
Proof.
  unfold applied, slot. rewrite variants_of_Some. unfold after_call.
  destruct (list_find (λ v, color v = clr) vs) as [[i cv]|] eqn:Hc; simpl.
  - pose proof Hc as (Hi & Hcv & _)%list_find_Some.
    destruct (list_find (λ x, strict_eq (size x) sz) (sizes cv))
      as [[j sv]|] eqn:Hs; simpl.
    + pose proof Hs as (Hj & Hsv%strict_eq_true & _)%list_find_Some.
      destruct (Z.ltb_spec (stock sv + q) 0) as [Hq|Hq];
        [case_decide; lia|].
      rewrite list_fmap_insert.
      rewrite (sumZ_insert _ i (first_stock s cv))
        by (by rewrite list_lookup_fmap, Hi).
      destruct (decide (s = sz)) as [->|Hne].
      * rewrite (first_stock_insert_same _ _ _ _ _ Hs).
        rewrite (first_stock_found _ _ _ _ Hs). lia.
      * rewrite first_stock_insert_other by congruence. lia.
    + rewrite list_fmap_insert, first_stock_snoc.
      rewrite list_insert_id by (by rewrite list_lookup_fmap, Hi).
      case_decide; lia.
  - rewrite fmap_app, sumZ_app. csimpl. rewrite sumZ_cons.
    change (sumZ []) with 0. unfold first_stock; simpl. case_decide; lia.
Qed.

Lemma sumZ_join (vs : list ColorVariant) :
  sumZ (stock <$> mjoin (sizes <$> vs)) = sumZ (color_total <$> vs).
Proof.
  induction vs as [|v vs IH]; csimpl; [done|].
  by rewrite fmap_app, sumZ_app, sumZ_cons, IH.
Qed.

Lemma totalStock_by_color (p : Doc) :
  totalStock p = sumZ (color_total <$> variants_of p).
Proof.
  rewrite <- sumZ_join. destruct p as [[vs|]]; [|done].
  unfold totalStock, variants_of; simpl. destruct vs as [|v vs]; [done|].
  change (length (v :: vs) =? 0)%nat with false; cbv iota.
  by rewrite total_outer_loop.
Qed.

(** [totalStock] after a call. *)
Lemma after_call_total clr sz q vs :
  sumZ (color_total <$> after_call clr sz q vs)
  = sumZ (color_total <$> vs) + applied (mkDoc (Some vs)) clr sz q.
Proof.
  unfold applied, slot. rewrite variants_of_Some. unfold after_call.
  destruct (list_find (λ v, color v = clr) vs) as [[i cv]|] eqn:Hc; simpl.
  - pose proof Hc as (Hi & Hcv & _)%list_find_Some.
    destruct (list_find (λ x, strict_eq (size x) sz) (sizes cv))
      as [[j sv]|] eqn:Hs; simpl.
    + pose proof Hs as (Hj & _ & _)%list_find_Some.
      destruct (Z.ltb_spec (stock sv + q) 0) as [Hq|Hq]; [lia|].
      rewrite list_fmap_insert.
      rewrite (sumZ_insert _ i (color_total cv))
        by (by rewrite list_lookup_fmap, Hi).
      unfold color_total; simpl. rewrite list_fmap_insert. simpl.
      rewrite (sumZ_insert _ j (stock sv))
        by (by rewrite list_lookup_fmap, Hj).
      lia.
    + rewrite list_fmap_insert.
      rewrite (sumZ_insert _ i (color_total cv))
        by (by rewrite list_lookup_fmap, Hi).
      unfold color_total; simpl. rewrite fmap_app, sumZ_app. csimpl.
      rewrite sumZ_cons. change (sumZ []) with 0. lia.
  - rewrite fmap_app, sumZ_app. csimpl. rewrite sumZ_cons.
    change (sumZ []) with 0. unfold color_total; simpl.
    change (sumZ []) with 0. lia.
Qed.

End one_call.

(** ** The two kinds of error text *)

Section messages.
Import Product.

Lemma prefix_append (s t u : string) :
  Strings.String.prefix s t = true → Strings.String.prefix s (t +:+ u) = true.
Proof.
  revert t. induction s as [|a s IH]; intros t; [by destruct (t +:+ u)|].
  destruct t as [|b t]; [done|]. intros H.
  change (String b t +:+ u) with (String b (t +:+ u)). simpl in *.
  destruct (Ascii.ascii_dec a b); [by apply IH|done].
Qed.

Lemma includes_prefix (needle haystack : string) :
  Strings.String.prefix needle haystack = true →
  Js.includes needle haystack = true.
Proof. intros H. destruct haystack; simpl in *; by rewrite H. Qed.

(** An insufficient-stock error is recognised by the handler's test. *)
Lemma insufficient_stock_recognised clr sz cur q :
  Js.includes "Insufficient stock" (insufficient_stock clr sz cur q) = true
  ∧ String.eqb (insufficient_stock clr sz cur q) EmptyString = false.
Proof.
  split; [|reflexivity].
  apply includes_prefix. unfold insufficient_stock. by apply prefix_append.
Qed.

(** The text of a validation error holds no capital I, so the handler's
    test does not take it for an insufficient-stock error. *)
Local Abbreviation no_I s :=
  (forallb (λ c, negb (Ascii.eqb c (Ascii.ascii_of_nat 73))) (Js.chars s) = true).

Lemma chars_append s t : Js.chars (s +:+ t) = Js.chars s ++ Js.chars t.
Proof. induction s as [|a s IH]; simpl; [done|]. by rewrite <- IH. Qed.

Lemma no_I_append s t : no_I s → no_I t → no_I (s +:+ t).
Proof. intros Hs Ht. by rewrite chars_append, forallb_app, Hs, Ht. Qed.

Lemma no_I_concat l : Forall (λ s, no_I s) l → no_I (String.concat ", " l).
Proof.
  induction 1 as [|s l Hs Hl IH]; [done|]. simpl.
  destruct l as [|t l]; [done|].
  apply no_I_append; [done|]. by apply (no_I_append ", ").
Qed.

Lemma no_I_pretty_N_go x : ∀ s, no_I s → no_I (pretty_N_go x s).
Proof.
  induction (N.lt_wf_0 x) as [x _ IH]; intros s Hs.
  destruct (decide (x = 0)%N) as [->|Hx]; [by rewrite pretty_N_go_0|].
  rewrite pretty_N_go_step by lia. apply IH; [apply N.div_lt; lia|].
  simpl. rewrite Hs, andb_true_r.
  unfold pretty_N_char. by repeat case_match.
Qed.

Lemma no_I_pretty_nat (n : nat) : no_I (pretty n).
Proof.
  unfold pretty, pretty_nat, pretty, pretty_N.
  case_decide; [done|]. by apply no_I_pretty_N_go.
Qed.

Lemma prefix_head a s b t :
  Strings.String.prefix (String a s) (String b t) = true → a = b.
Proof. simpl. by destruct (Ascii.ascii_dec a b). Qed.

Lemma no_I_includes h : no_I h → Js.includes "Insufficient stock" h = false.
Proof.
  induction h as [|b h IH]; [done|]. simpl Js.chars. simpl forallb.
  intros [Hb Hh]%andb_true_iff.
  change (Js.includes "Insufficient stock" (String b h))
    with (if Strings.String.prefix "Insufficient stock" (String b h) then true
          else Js.includes "Insufficient stock" h).
  rewrite (IH Hh).
  destruct (Strings.String.prefix _ _) eqn:Hp; [|done].
  apply prefix_head in Hp as <-. discriminate Hb.
Qed.

Lemma Forall_mjoin_imap {A B} (P : B → Prop) (l : list A) :
  ∀ f : nat → A → list B,
  (∀ i x, Forall P (f i x)) → Forall P (mjoin (imap f l)).
Proof.
  induction l as [|x l IH]; intros f Hf; csimpl; [constructor|].
  apply Forall_app. split; [apply Hf|]. apply IH. intros i y. apply Hf.
Qed.

Lemma no_I_size_errors path sv :
  no_I path → Forall (λ s, no_I s) (size_errors path sv).
Proof.
  intros Hp. unfold size_errors. apply Forall_app. split.
  - destruct (size_validator (size sv)); repeat constructor.
    by apply no_I_append.
  - destruct (stock_min (stock sv)); repeat constructor.
    by apply no_I_append.
Qed.

Lemma no_I_color_errors path cv :
  no_I path → Forall (λ s, no_I s) (color_errors path cv).
Proof.
  intros Hp. unfold color_errors. repeat (apply Forall_app; split).
  - destruct (String.eqb (color cv) EmptyString); repeat constructor.
    by apply no_I_append.
  - destruct (sizes_validator (sizes cv)); repeat constructor.
    by apply no_I_append.
  - apply Forall_mjoin_imap. intros j sv. apply no_I_size_errors.
    apply no_I_append; [done|]. apply (no_I_append ".sizes."); [done|].
    apply no_I_pretty_nat.
Qed.

Lemma validation_not_insufficient (p : Doc) :
  Js.includes "Insufficient stock" (validation_failed (validation_errors p))
  = false.
Proof.
  apply no_I_includes. unfold validation_failed.
  apply (no_I_append "Product validation failed: "); [done|].
  apply no_I_concat. unfold validation_errors.
  destruct (variants p) as [vs|]; [|by repeat constructor].
  apply Forall_app. split.
  - destruct (variants_validator (Some vs)); by repeat constructor.
  - apply Forall_mjoin_imap. intros i cv. apply no_I_color_errors.
    apply (no_I_append "variants."); [done|]. apply no_I_pretty_nat.
Qed.

End messages.

(** ** The stock model: invariant, find-or-create, independence of sizes *)

Section stock_model.
Import Product Spec.

Lemma updateStock_outcome_nonneg w clr sz q :
  world_nonneg w → outcome_nonneg (updateStock clr sz q w).
Proof.
  intros [Hthis Hst]. unfold outcome_nonneg, world_nonneg.
  pose proof (after_call_nonneg clr sz q _ Hthis) as Hafter.
  destruct (updateStock_cases w clr sz q)
    as [(_ & ->)|[(_ & _ & ->)|(_ & _ & ->)]]; simpl; done.
Qed.

Lemma run_nonneg calls : ∀ w,
  world_nonneg w → Forall outcome_nonneg (run calls w).
Proof.
  induction calls as [|c calls IH]; intros w Hw; simpl; [constructor|].
  pose proof (updateStock_outcome_nonneg w (call_color c) (call_size c)
                (call_quantity c) Hw) as Hr.
  constructor; [exact Hr|]. apply IH, Hr.
Qed.

(** C1. Starting from a product in which every SizeVariant's stock is at
    least zero, after each call of any sequence of [updateStock] calls
    (returned or thrown) every SizeVariant's stock is at least zero, in the
    returned document, in the in-memory product and in the stored one. *)
Theorem stock_never_negative (p : Doc) (calls : list Call) :
  stock_nonneg p → Forall outcome_nonneg (run calls (loaded p)).
Proof. intros Hp. apply run_nonneg. by split. Qed.

Lemma stock_never_negative_witness :
  Forall outcome_nonneg
    (run [mkCall "black" (NumSize 8) (-5); mkCall "black" (NumSize 8) (-10);
          mkCall "red" (NumSize 9) 3]
       (loaded (mkDoc (Some
          [mkColorVariant "black" [mkSizeVariant (NumSize 8) 10] None])))).
Proof. apply stock_never_negative. vm_compute. repeat constructor; discriminate. Defined.

Lemma updateStock_slot_stock (w : World) clr sz q c s :
  slot_stock (this (updateStock clr sz q w).2) c s
  = slot_stock (this w) c s
    + (if decide (c = clr ∧ s = sz) then applied (this w) clr sz q else 0).
Proof.
  rewrite updateStock_this, after_call_slot_stock. reflexivity.
Qed.

Lemma updateStock_bySize (w : World) clr sz q s :
  getStockBySize (this (updateStock clr sz q w).2) s
  = getStockBySize (this w) s
    + (if decide (s = sz) then applied (this w) clr sz q else 0).
Proof.
  rewrite !getStockBySize_first_match, updateStock_variants, after_call_bySize.
  reflexivity.
Qed.

(** A color that is not there: whatever the size and the quantity, the
    call throws and leaves the color, trimmed and without sizes, in the
    product. *)
Lemma updateStock_new_color_throws w clr sz q :
  list_find (λ v, color v = clr) (variants_of (this w)) = None →
  ∃ e, updateStock clr sz q w
       = (Js.Throw e,
          mkWorld
            (mkDoc (Some (variants_of (this w)
                            ++ [mkColorVariant (Js.trim clr) [] (Some [])])))
            (stored w))
       ∧ e = (if q <? 0 then insufficient_stock clr sz 0 q
              else validation_failed (validation_errors
                     (mkDoc (Some (variants_of (this w)
                        ++ [mkColorVariant (Js.trim clr) [] (Some [])]))))).
Proof.
  intros Hc. rewrite (updateStock_new_color _ _ _ _ Hc). cbv zeta.
  destruct (q <? 0); [by eexists|].
  destruct (save_cases (mkWorld (mkDoc (Some (variants_of (this w)
              ++ [mkColorVariant (Js.trim clr) [] (Some [])]))) (stored w)))
    as [[Hok _]|[_ ->]]; [|by eexists].
  destruct Hok as (vs & [= <-] & _ & Hall). simpl in Hall.
  apply Forall_app in Hall as [_ Hlast].
  apply Forall_inv in Hlast. by apply color_ok_sizes in Hlast.
Qed.

(** C10. With [variants] absent the call does start from the empty
    sequence: it behaves as on a product whose [variants] is the empty
    array.  But it never succeeds.  The document receives a copy of the new
    color, and the size and the stock go to the object that was copied; so
    the call throws, nothing is stored, and the product is left with that
    one color, trimmed, without any size.  For red/9 and a quantity of 3
    the error is not the insufficient-stock one: it comes from [save]. *)
Theorem updateStock_absent_variants (st : Doc) (clr : string) (sz : Size)
    (quantity : Z) :
  updateStock clr sz quantity (mkWorld (mkDoc None) st)
    = updateStock clr sz quantity (mkWorld (mkDoc (Some [])) st)
  ∧ (∃ e, updateStock clr sz quantity (mkWorld (mkDoc None) st)
          = (Js.Throw e,
             mkWorld (mkDoc (Some [mkColorVariant (Js.trim clr) [] (Some [])]))
               st))
  ∧ (∃ e, updateStock "red" (NumSize 9) 3 (mkWorld (mkDoc None) st)
          = (Js.Throw e,
             mkWorld (mkDoc (Some [mkColorVariant "red" [] (Some [])])) st)
        ∧ Js.includes "Insufficient stock" e = false).
Proof.
  split_and!.
  - by rewrite !updateStock_new_color.
  - destruct (updateStock_new_color_throws (mkWorld (mkDoc None) st)
                clr sz quantity eq_refl) as (e & -> & _).
    by exists e.
  - exists (validation_failed (validation_errors
              (mkDoc (Some [mkColorVariant "red" [] (Some [])])))).
    split; [|reflexivity]. by rewrite updateStock_new_color.
Qed.

(** C3. What find-or-create leaves in the product, on a product that holds
    black/8 with 10 in stock.  A size that is not there is added last with
    stock 0 and the call returns, but the quantity is not applied: the
    stored slot holds 0, not 3.  A color that is not there is added last
    without sizes, and the call throws from [save] with nothing stored.
    Only a slot that is there gets its stock moved by the quantity.  For
    every product, a slot that was not there reads 0 after the call. *)
Theorem updateStock_find_or_create :
  let black n := mkColorVariant "black" n None in
  let p := mkDoc (Some [black [mkSizeVariant (NumSize 8) 10]]) in
  (let d := mkDoc (Some
       [black [mkSizeVariant (NumSize 8) 10; mkSizeVariant (NumSize 9) 0]]) in
   updateStock "black" (NumSize 9) 3 (loaded p) = (Js.Normal d, mkWorld d d))
  ∧ (∃ e, updateStock "red" (NumSize 9) 3 (loaded p)
          = (Js.Throw e,
             mkWorld
               (mkDoc (Some [black [mkSizeVariant (NumSize 8) 10];
                             mkColorVariant "red" [] (Some [])]))
               p)
        ∧ Js.includes "Insufficient stock" e = false)
  ∧ (let d := mkDoc (Some [black [mkSizeVariant (NumSize 8) 5]]) in
     updateStock "black" (NumSize 8) (-5) (loaded p)
       = (Js.Normal d, mkWorld d d))
  ∧ (∀ w clr sz q,
       slot (this w) clr sz = None →
       slot_stock (this (updateStock clr sz q w).2) clr sz = 0).
Proof.
  split_and!.
  - reflexivity.
  - exists (validation_failed (validation_errors
              (mkDoc (Some [mkColorVariant "black" [mkSizeVariant (NumSize 8) 10] None;
                            mkColorVariant "red" [] (Some [])])))).
    split; reflexivity.
  - reflexivity.
  - intros w clr sz q Hslot. rewrite updateStock_slot_stock.
    unfold slot_stock, applied. rewrite Hslot. simpl. case_decide; lia.
Qed.

(** C9. A numeric size and a string size never match under [===], so in
    particular 8 and the string 8 are two slots.  A call on the numeric one,
    whatever its outcome, leaves the stock of the string one, under every
    color, and [getStockBySize] of the string one as they were, and the
    other way round.  A color holding both reports each under its own size,
    slot by slot and through [getStockBySize].  On black holding 3 of size 8
    and 4 of the string 8, adding 2 to the first and then taking 4 from the
    second gives 5 and 0. *)
Theorem number_and_string_sizes_independent (w : World) (clr : string)
    (n : Z) (s : string) (q : Z) :
  let after_num := this (updateStock clr (NumSize n) q w).2 in
  let after_str := this (updateStock clr (StrSize s) q w).2 in
  strict_eq (NumSize n) (StrSize s) = false
  ∧ strict_eq (StrSize s) (NumSize n) = false
  ∧ (∀ c, slot_stock after_num c (StrSize s) = slot_stock (this w) c (StrSize s))
  ∧ getStockBySize after_num (StrSize s) = getStockBySize (this w) (StrSize s)
  ∧ (∀ c, slot_stock after_str c (NumSize n) = slot_stock (this w) c (NumSize n))
  ∧ getStockBySize after_str (NumSize n) = getStockBySize (this w) (NumSize n)
  ∧ (∀ a b im,
       let d := mkDoc (Some
         [mkColorVariant clr
            [mkSizeVariant (NumSize n) a; mkSizeVariant (StrSize s) b] im]) in
       slot_stock d clr (NumSize n) = a ∧ slot_stock d clr (StrSize s) = b
       ∧ getStockBySize d (NumSize n) = a ∧ getStockBySize d (StrSize s) = b)
  ∧ (let black a b := mkDoc (Some
       [mkColorVariant "black"
          [mkSizeVariant (NumSize 8) a; mkSizeVariant (StrSize "8") b] None]) in
     updateStock "black" (NumSize 8) 2 (loaded (black 3 4))
       = (Js.Normal (black 5 4), loaded (black 5 4))
     ∧ updateStock "black" (StrSize "8") (-4) (loaded (black 5 4))
       = (Js.Normal (black 5 0), loaded (black 5 0))).
Proof.
  intros after_num after_str. subst after_num after_str.
  split_and!; try reflexivity.
  - intros c. rewrite updateStock_slot_stock.
    rewrite decide_False by (by intros [_ ?]). lia.
  - rewrite updateStock_bySize. rewrite decide_False by done. lia.
  - intros c. rewrite updateStock_slot_stock.
    rewrite decide_False by (by intros [_ ?]). lia.
  - rewrite updateStock_bySize. rewrite decide_False by done. lia.
  - intros a b im d. subst d.
    rewrite !getStockBySize_first_match, !slot_stock_scan.
    unfold variants_of, first_stock; csimpl.
    rewrite !decide_True by done. csimpl.
    rewrite !decide_True
      by (apply Is_true_true; first [apply Z.eqb_refl|apply String.eqb_refl]).
    csimpl. rewrite !sumZ_cons. change (sumZ []) with 0. lia.
  - split; reflexivity.
Qed.

Lemma number_and_string_sizes_independent_witness :
  getStockBySize
    (this (updateStock "black" (NumSize 8) (-5)
       (loaded (mkDoc (Some
          [mkColorVariant "black"
             [mkSizeVariant (NumSize 8) 10; mkSizeVariant (StrSize "8") 7]
             None])))).2)
    (StrSize "8")
  = 7.
Proof.
  pose proof (number_and_string_sizes_independent
    (loaded (mkDoc (Some
       [mkColorVariant "black"
          [mkSizeVariant (NumSize 8) 10; mkSizeVariant (StrSize "8") 7]
          None])))
    "black" 8 "8" (-5)) as (_ & _ & _ & H & _).
  exact H.
Defined.

End stock_model.

(** ** What [updateStock] keeps *)

Section kept.
Import Product Spec.

Lemma slot_Some (p : Doc) clr sz sv :
  slot p clr sz = Some sv ↔
  ∃ i cv j,
    list_find (λ v, color v = clr) (variants_of p) = Some (i, cv)
    ∧ list_find (λ s, strict_eq (size s) sz) (sizes cv) = Some (j, sv).
Proof.
  unfold slot.
  destruct (list_find (λ v, color v = clr) (variants_of p)) as [[i cv]|]; simpl.
  - destruct (list_find (λ s, strict_eq (size s) sz) (sizes cv))
      as [[j sv']|] eqn:Hs; simpl; split.
    + intros [= <-]. by exists i, cv, j.
    + intros (? & ? & ? & [= <- <-] & Hs'). congruence.
    + done.
    + intros (? & ? & ? & [= <- <-] & Hs'). congruence.
  - split; [done|]. by intros (? & ? & ? & ? & _).
Qed.

Lemma slot_None_color (p : Doc) clr sz :
  list_find (λ v, color v = clr) (variants_of p) = None → slot p clr sz = None.
Proof. unfold slot. by intros ->. Qed.

Lemma color_found (vs : list ColorVariant) clr :
  is_Some (list_find (λ v, color v = clr) vs) ↔ ∃ cv, cv ∈ vs ∧ color cv = clr.
Proof.
  split.
  - intros [[i cv] (Hi & Hcv & _)%list_find_Some]. exists cv.
    split; [by eapply list_elem_of_lookup_2|done].
  - intros (cv & Hin & Hcv).
    destruct (list_find (λ v, color v = clr) vs) eqn:Hf; [done|].
    apply list_find_None in Hf.
    by destruct (proj1 (Forall_forall _ _) Hf cv Hin).
Qed.

Lemma color_not_found (vs : list ColorVariant) clr :
  list_find (λ v, color v = clr) vs = None ↔ ∀ cv, cv ∈ vs → color cv ≠ clr.
Proof. rewrite list_find_None, Forall_forall. done. Qed.

Lemma size_fmap_insert (l : list SizeVariant) j sv n :
  l !! j = Some sv →
  size <$> <[j := mkSizeVariant (size sv) n]> l = size <$> l.
Proof.
  intros Hj. rewrite list_fmap_insert. apply list_insert_id.
  by rewrite list_lookup_fmap, Hj.
Qed.

Lemma color_fmap_insert (vs : list ColorVariant) i cv szs :
  vs !! i = Some cv →
  color <$> <[i := mkColorVariant (color cv) szs (images cv)]> vs = color <$> vs.
Proof.
  intros Hi. rewrite list_fmap_insert. apply list_insert_id.
  by rewrite list_lookup_fmap, Hi.
Qed.

(** The shapes of [after_call]: the color is added, or one color of the
    product is replaced by itself with other sizes. *)
Lemma after_call_cases clr sz q vs :
  (list_find (λ v, color v = clr) vs = None
   ∧ after_call clr sz q vs = vs ++ [mkColorVariant (Js.trim clr) [] (Some [])])
  ∨ (∃ i cv sizes',
       list_find (λ v, color v = clr) vs = Some (i, cv)
       ∧ after_call clr sz q vs
           = <[i := mkColorVariant (color cv) sizes' (images cv)]> vs
       ∧ ((list_find (λ s, strict_eq (size s) sz) (sizes cv) = None
           ∧ sizes' = sizes cv ++ [mkSizeVariant sz 0])
          ∨ (∃ j sv n,
               list_find (λ s, strict_eq (size s) sz) (sizes cv) = Some (j, sv)
               ∧ sizes' = <[j := mkSizeVariant (size sv) n]> (sizes cv)
               ∧ n = (if stock sv + q <? 0 then stock sv else stock sv + q)))).
Proof.
  unfold after_call.
  destruct (list_find (λ v, color v = clr) vs) as [[i cv]|] eqn:Hc; [|by left].
  right. exists i, cv. pose proof Hc as (Hi & _ & _)%list_find_Some.
  destruct (list_find _ (sizes cv)) as [[j sv]|] eqn:Hs.
  - pose proof Hs as (Hj & _ & _)%list_find_Some.
    exists (<[j := mkSizeVariant (size sv)
                      (if stock sv + q <? 0 then stock sv else stock sv + q)]>
              (sizes cv)).
    split_and!; [done| |right; by eexists j, sv, _].
    destruct (stock sv + q <? 0); [|done].
    assert (mkSizeVariant (size sv) (stock sv) = sv) as -> by (by destruct sv).
    rewrite (list_insert_id _ _ _ Hj).
    assert (mkColorVariant (color cv) (sizes cv) (images cv) = cv) as ->
      by (by destruct cv).
    by rewrite (list_insert_id _ _ _ Hi).
  - eexists. split_and!; [done|done|by left].
Qed.

Lemma after_call_only_appends clr sz q vs :
  (color <$> vs) `prefix_of` (color <$> after_call clr sz q vs)
  ∧ (length (after_call clr sz q vs) ≤ length vs + 1)%nat
  ∧ ∀ i cv cv',
      vs !! i = Some cv → after_call clr sz q vs !! i = Some cv' →
      images cv' = images cv
      ∧ (size <$> sizes cv) `prefix_of` (size <$> sizes cv')
      ∧ (length (sizes cv') ≤ length (sizes cv) + 1)%nat.
Proof.
  destruct (after_call_cases clr sz q vs)
    as [[_ ->]|(i0 & cv0 & sizes' & (Hi0 & _ & _)%list_find_Some & -> & Hsizes)].
  - split_and!.
    + rewrite fmap_app. by eexists.
    + rewrite length_app. simpl. lia.
    + intros i cv cv' Hi Hi'. rewrite (lookup_app_l_Some _ _ _ _ Hi) in Hi'.
      injection Hi' as <-. split_and!; [done| |lia]. reflexivity.
  - split_and!.
    + rewrite color_fmap_insert by done. reflexivity.
    + rewrite length_insert. lia.
    + intros i cv cv' Hi Hi'. destruct (decide (i = i0)) as [->|Hne].
      * rewrite list_lookup_insert_eq in Hi' by (by eapply lookup_lt_Some).
        injection Hi' as <-. simplify_eq. simpl. split; [done|].
        destruct Hsizes as [[_ ->]|(j & sv & n & (Hj & _ & _)%list_find_Some & -> & _)].
        -- rewrite fmap_app, length_app. simpl. split; [by eexists|lia].
        -- rewrite size_fmap_insert, length_insert by done.
           split; [reflexivity|lia].
      * rewrite list_lookup_insert_ne in Hi' by done. simplify_eq.
        split_and!; [done| |lia]. reflexivity.
Qed.

(** X5. [updateStock] only ever appends.  After a call, returned or thrown,
    the colors that were there are at the same positions, at most one color
    has been added, at the end; and every color that was there has kept its
    images and its sizes at the same positions, with at most one size added,
    at the end. *)
Theorem updateStock_only_appends (w : World) (clr : string) (sz : Size) (q : Z) :
  let vs := variants_of (this w) in
  let vs' := variants_of (this (updateStock clr sz q w).2) in
  (color <$> vs) `prefix_of` (color <$> vs')
  ∧ (length vs' ≤ length vs + 1)%nat
  ∧ ∀ i cv cv',
      vs !! i = Some cv → vs' !! i = Some cv' →
      images cv' = images cv
      ∧ (size <$> sizes cv) `prefix_of` (size <$> sizes cv')
      ∧ (length (sizes cv') ≤ length (sizes cv) + 1)%nat.
Proof.
  intros vs vs'. subst vs'. rewrite updateStock_variants.
  apply after_call_only_appends.
Qed.

Lemma after_call_colors_unique clr sz q vs :
  Js.trim clr = clr →
  NoDup (color <$> vs) → NoDup (color <$> after_call clr sz q vs).
Proof.
  intros Htrim Hnd.
  destruct (after_call_cases clr sz q vs)
    as [[Hfresh ->]|(i0 & cv0 & sizes' & (Hi0 & _ & _)%list_find_Some & -> & _)].
  - rewrite fmap_app, Htrim. apply NoDup_app. split_and!; [done| |].
    + intros x (v & -> & Hv)%list_elem_of_fmap
        [Heq|[]%elem_of_nil]%elem_of_cons.
      by apply (proj1 (color_not_found _ _) Hfresh v Hv).
    + repeat constructor. by intros ?%elem_of_nil.
  - by rewrite color_fmap_insert.
Qed.

(** X6. The stored color is the trimmed one, while the search compares the
    color as it was given.  For a color given without white space at either
    end the two agree, and [updateStock] then never makes a second
    ColorVariant for a color: if no two ColorVariants share a color before
    the call, none do after it, whether it returned or threw. *)
Theorem updateStock_keeps_colors_unique (w : World) (clr : string) (sz : Size)
    (q : Z) :
  Js.trim clr = clr →
  NoDup (color <$> variants_of (this w)) →
  NoDup (color <$> variants_of (this (updateStock clr sz q w).2)).
Proof.
  intros Htrim Hnd. rewrite updateStock_variants.
  by apply after_call_colors_unique.
Qed.

Lemma updateStock_keeps_colors_unique_witness :
  NoDup (color <$> variants_of (this (updateStock "red" (NumSize 9) 3
    (loaded (mkDoc (Some
       [mkColorVariant "black" [mkSizeVariant (NumSize 8) 10] None])))).2)).
Proof.
  apply updateStock_keeps_colors_unique; [reflexivity|].
  apply (bool_decide_unpack _). vm_compute. exact I.
Defined.

(** *** Totals *)

(** X7. What a call does to [totalStock] of the product in memory: it moves
    by the quantity when the addressed slot was there and its stock allowed
    the quantity, and it stays as it was in every other case, also when the
    call created the slot and returned. *)
Theorem updateStock_totalStock (w : World) (clr : string) (sz : Size) (q : Z) :
  let r := updateStock clr sz q w in
  totalStock (this r.2) = totalStock (this w) + applied (this w) clr sz q
  ∧ (slot (this w) clr sz = None → totalStock (this r.2) = totalStock (this w))
  ∧ (∀ sv, slot (this w) clr sz = Some sv → 0 ≤ stock sv + q →
       totalStock (this r.2) = totalStock (this w) + q).
Proof.
  intros r. subst r.
  assert (Heq : totalStock (this (updateStock clr sz q w).2)
                = totalStock (this w) + applied (this w) clr sz q).
  { rewrite !totalStock_by_color, updateStock_variants, after_call_total.
    reflexivity. }
  split_and!; [done| |].
  - intros Hslot. rewrite Heq. unfold applied. rewrite Hslot. lia.
  - intros sv Hslot Hq. rewrite Heq. unfold applied. rewrite Hslot.
    by rewrite (proj2 (Z.ltb_ge _ _)) by done.
Qed.

Lemma sumZ_nonneg (l : list Z) : Forall (λ x, 0 ≤ x) l → 0 ≤ sumZ l.
Proof.
  induction 1 as [|x l Hx _ IH]; [done|]. rewrite sumZ_cons. lia.
Qed.

Lemma sumZ_pos (l : list Z) :
  Forall (λ x, 0 ≤ x) l → 0 < sumZ l ↔ Exists (λ x, 0 < x) l.
Proof.
  induction 1 as [|x l Hx Hl IH].
  - split; [done|by inversion 1].
  - rewrite sumZ_cons, Exists_cons, <- IH. pose proof (sumZ_nonneg l Hl). lia.
Qed.

Lemma color_total_nonneg cv :
  Forall (λ sv, 0 ≤ stock sv) (sizes cv) → 0 ≤ color_total cv.
Proof. intros H. apply sumZ_nonneg. by apply Forall_fmap. Qed.

Lemma scan_sizes_total cv :
  Forall (λ sv, 0 ≤ stock sv) (sizes cv) →
  scan_sizes (sizes cv) = true ↔ 0 < color_total cv.
Proof.
  intros H. unfold color_total. rewrite sumZ_pos by (by apply Forall_fmap).
  rewrite scan_sizes_spec, Exists_exists. split.
  - intros (sv & Hsv & Hpos). exists (stock sv). split; [|done].
    apply list_elem_of_fmap. by exists sv.
  - intros (x & (sv & -> & Hsv)%list_elem_of_fmap & Hpos). by exists sv.
Qed.

(** X8. On a product without negative stock the two virtuals agree:
    [inStock] is true exactly when [totalStock] is above zero. *)
Theorem inStock_iff_totalStock_positive (p : Doc) :
  stock_nonneg p → inStock p = true ↔ 0 < totalStock p.
Proof.
  intros Hp. rewrite totalStock_by_color.
  assert (inStock p = scan_variants (variants_of p)) as ->.
  { by destruct p as [[[|v vs]|]]. }
  unfold stock_nonneg in Hp.
  induction Hp as [|cv vs Hcv Hvs IH]; [done|]. csimpl. rewrite sumZ_cons.
  assert ((0 <? length (sizes cv))%nat && scan_sizes (sizes cv)
          = scan_sizes (sizes cv)) as -> by (by destruct (sizes cv)).
  pose proof (color_total_nonneg cv Hcv).
  assert (0 ≤ sumZ (color_total <$> vs)).
  { apply sumZ_nonneg, Forall_fmap.
    eapply Forall_impl; [exact Hvs|]. apply color_total_nonneg. }
  destruct (scan_sizes (sizes cv)) eqn:Hscan.
  - apply scan_sizes_total in Hscan; [|done]. split; [lia|done].
  - assert (¬ 0 < color_total cv).
    { intros Hpos%scan_sizes_total; [congruence|done]. }
    rewrite IH. lia.
Qed.

Lemma inStock_iff_totalStock_positive_witness :
  inStock (mkDoc (Some
    [mkColorVariant "black"
       [mkSizeVariant (NumSize 8) 0; mkSizeVariant (NumSize 9) 2] None])) = true
  ↔ 0 < totalStock (mkDoc (Some
    [mkColorVariant "black"
       [mkSizeVariant (NumSize 8) 0; mkSizeVariant (NumSize 9) 2] None])).
Proof.
  apply inStock_iff_totalStock_positive. apply (bool_decide_unpack _).
  vm_compute. exact I.
Defined.

Lemma first_stock_bounds s cv :
  Forall (λ sv, 0 ≤ stock sv) (sizes cv) →
  0 ≤ first_stock s cv ≤ color_total cv.
Proof.
  unfold first_stock, color_total.
  induction 1 as [|sv l Hsv Hl IH]; [done|].
  rewrite at_first_cons, fmap_cons, sumZ_cons.
  assert (0 ≤ sumZ (stock <$> l)) by (by apply sumZ_nonneg, Forall_fmap).
  case_decide; simpl; lia.
Qed.

(** X9. On a product without negative stock, the stock of one size summed
    over the colors lies between 0 and [totalStock]. *)
Theorem getStockBySize_bounds (p : Doc) (s : Size) :
  stock_nonneg p → 0 ≤ getStockBySize p s ≤ totalStock p.
Proof.
  intros Hp. rewrite getStockBySize_first_match, totalStock_by_color.
  unfold stock_nonneg in Hp.
  induction Hp as [|cv vs Hcv _ IH]; [done|]. csimpl. rewrite !sumZ_cons.
  pose proof (first_stock_bounds s cv Hcv). lia.
Qed.

Lemma getStockBySize_bounds_witness :
  0 ≤ getStockBySize (mkDoc (Some
        [mkColorVariant "black"
           [mkSizeVariant (NumSize 8) 4; mkSizeVariant (NumSize 9) 2] None]))
        (NumSize 9)
    ≤ totalStock (mkDoc (Some
        [mkColorVariant "black"
           [mkSizeVariant (NumSize 8) 4; mkSizeVariant (NumSize 9) 2] None])).
Proof.
  apply getStockBySize_bounds. apply (bool_decide_unpack _).
  vm_compute. exact I.
Defined.

End kept.

(** ** When a call returns *)

Section outcome.
Import Product Spec.

Lemma insert_not_nil {A} (l : list A) i x y : l !! i = Some x → <[i := y]> l ≠ [].
Proof.
  intros Hi Hnil. apply lookup_lt_Some in Hi.
  apply (f_equal length) in Hnil. rewrite length_insert in Hnil. simpl in Hnil. lia.
Qed.

Lemma after_call_not_nil clr sz q vs : after_call clr sz q vs ≠ [].
Proof.
  destruct (after_call_cases clr sz q vs)
    as [[_ ->]|(i & cv & sizes' & (Hi & _ & _)%list_find_Some & -> & _)].
  - by destruct vs.
  - by eapply insert_not_nil.
Qed.

Lemma schema_ok_after clr sz q vs :
  schema_ok (mkDoc (Some (after_call clr sz q vs)))
  ↔ Forall color_ok (after_call clr sz q vs).
Proof.
  split.
  - by intros (? & [= <-] & _ & ?).
  - intros H. eexists. split_and!; [done| |done]. apply after_call_not_nil.
Qed.

Lemma schema_ok_variants p :
  schema_ok p → p = mkDoc (Some (variants_of p)) ∧ Forall color_ok (variants_of p).
Proof. destruct p as [vo]. by intros (vs & [= ->] & _ & ?). Qed.

(** A color without sizes does not pass. *)
Lemma new_color_invalid vs c im :
  ¬ Forall color_ok (vs ++ [mkColorVariant c [] im]).
Proof.
  intros [_ Hlast]%Forall_app. apply Forall_inv in Hlast.
  by apply color_ok_sizes in Hlast.
Qed.

Lemma stock_nonneg_ok cv j sv :
  color_ok cv → sizes cv !! j = Some sv → 0 ≤ stock sv.
Proof.
  intros (_ & _ & Hall) Hj. by destruct (Forall_lookup_1 _ _ _ _ Hall Hj).
Qed.

(** The in-memory product after a call on a color that is there passes
    validation when it did before and the size is a valid one. *)
Lemma after_call_ok clr sz q vs :
  Forall color_ok vs →
  is_Some (list_find (λ v, color v = clr) vs) →
  is_Some (slot (mkDoc (Some vs)) clr sz) ∨ size_validator sz = true →
  Forall color_ok (after_call clr sz q vs).
Proof.
  intros Hvs Hfound Hsz.
  destruct (after_call_cases clr sz q vs)
    as [[Hc _]|(i & cv & sizes' & Hc & -> & Hsizes)].
  { rewrite Hc in Hfound. by destruct Hfound. }
  pose proof Hc as (Hi & _ & _)%list_find_Some.
  pose proof (Forall_lookup_1 _ _ _ _ Hvs Hi) as Hcv.
  pose proof Hcv as (Hcolor & (Hne & Hnd)%sizes_validator_spec & Hall).
  apply Forall_insert; [done|]. split_and!; [done|apply sizes_validator_spec|];
    simpl.
  - destruct Hsizes as [[Hs ->]|(j & sv & n & (Hj & _ & _)%list_find_Some & -> & _)].
    + split; [by destruct (sizes cv)|].
      rewrite fmap_app. apply NoDup_app. split_and!; [done| |].
      * intros x (s & -> & Hin)%list_elem_of_fmap
          [Heq|[]%elem_of_nil]%elem_of_cons.
        apply list_find_None in Hs.
        apply (proj1 (Forall_forall _ _) Hs s Hin). by apply strict_eq_true.
      * repeat constructor. by intros ?%elem_of_nil.
    + split; [by eapply insert_not_nil|]. by rewrite size_fmap_insert.
  - destruct Hsizes as [[Hs ->]|(j & sv & n & (Hj & _ & _)%list_find_Some & -> & ->)].
    + apply Forall_app. split; [done|]. constructor; [|constructor].
      simpl. split; [|done].
      destruct Hsz as [Hslot|Hv]; [|done].
      unfold slot in Hslot. rewrite variants_of_Some, Hc in Hslot. simpl in Hslot.
      rewrite Hs in Hslot. by destruct Hslot.
    + apply Forall_insert; [done|]. simpl.
      destruct (Forall_lookup_1 _ _ _ _ Hall Hj) as [Hv Hst].
      split; [done|]. destruct (Z.ltb_spec (stock sv + q) 0); lia.
Qed.

(** Conversely, a product that passes after a call had the color, and the
    size was there or is a valid one. *)
Lemma after_call_ok_inv clr sz q vs :
  Forall color_ok (after_call clr sz q vs) →
  is_Some (list_find (λ v, color v = clr) vs)
  ∧ (is_Some (slot (mkDoc (Some vs)) clr sz) ∨ size_validator sz = true).
Proof.
  unfold slot. rewrite variants_of_Some.
  destruct (after_call_cases clr sz q vs)
    as [[Hc ->]|(i & cv & sizes' & Hc & -> & Hsizes)].
  { by intros ?%new_color_invalid. }
  pose proof Hc as (Hi & _ & _)%list_find_Some.
  intros Hall. rewrite Hc. split; [done|]. simpl.
  destruct Hsizes as [[Hs ->]|(j & sv & n & -> & _)]; [|by left].
  right.
  assert (Hin : <[i:=mkColorVariant (color cv) (sizes cv ++ [mkSizeVariant sz 0])
                      (images cv)]> vs !! i
                = Some (mkColorVariant (color cv)
                          (sizes cv ++ [mkSizeVariant sz 0]) (images cv))).
  { apply list_lookup_insert_eq. by eapply lookup_lt_Some. }
  pose proof (Forall_lookup_1 _ _ _ _ Hall Hin) as (_ & _ & Hsizes).
  simpl in Hsizes. apply Forall_app in Hsizes as [_ Hlast].
  by apply Forall_inv in Hlast as [? _].
Qed.

(** X4. What a call does to the validity of the product in memory, on a
    product that passes validation.  When some ColorVariant has the color
    and the size is one the [size] validator accepts, the product passes
    validation after the call too, returned or thrown.  When no ColorVariant
    has the color, the call throws and leaves a product that does not
    pass. *)
Theorem updateStock_keeps_schema (w : World) (clr : string) (sz : Size) (q : Z) :
  validation_errors (this w) = [] →
  let r := updateStock clr sz q w in
  ((∃ cv, cv ∈ variants_of (this w) ∧ color cv = clr) →
   size_validator sz = true →
   validation_errors (this r.2) = [])
  ∧ ((∀ cv, cv ∈ variants_of (this w) → color cv ≠ clr) →
     validation_errors (this r.2) ≠ [] ∧ ∃ e, r.1 = Js.Throw e).
Proof.
  intros [_ Hvs]%validation_errors_nil%schema_ok_variants r. subst r.
  split.
  - intros Hfound%color_found Hsz.
    rewrite updateStock_this. apply validation_errors_nil, schema_ok_after.
    apply after_call_ok; auto.
  - intros Hc%color_not_found.
    destruct (updateStock_new_color_throws w clr sz q Hc) as (e & -> & _).
    simpl. split; [|by eexists].
    rewrite validation_errors_nil. intros (? & [= <-] & _ & Hall).
    by apply new_color_invalid in Hall.
Qed.

Lemma updateStock_keeps_schema_witness :
  validation_errors
    (this (updateStock "black" (StrSize "XL") 4
       (loaded (mkDoc (Some
          [mkColorVariant "black" [mkSizeVariant (StrSize "M") 2] None])))).2)
  = [].
Proof.
  refine (proj1 (updateStock_keeps_schema
    (loaded (mkDoc (Some
       [mkColorVariant "black" [mkSizeVariant (StrSize "M") 2] None])))
    "black" (StrSize "XL") 4 _) _ _).
  - reflexivity.
  - eexists. split; [apply list_elem_of_here|reflexivity].
  - reflexivity.
Defined.

(** X19. One call, slot by slot.  When the stock of the addressed slot (0
    when it is not there) plus the quantity is negative, the call throws an
    error that the handlers recognise as insufficient stock.  Whenever it
    throws, nothing is stored.  When it returns, the returned document is
    the product in memory and the stored copy, it passes validation, the sum
    was not negative and some ColorVariant had the color already.  Whatever
    the outcome, every slot of the product in memory reads what it read
    before, except that the addressed slot, when it was there and its stock
    allowed the quantity, has moved by the quantity. *)
Theorem updateStock_by_slot (w : World) (clr : string) (sz : Size) (q : Z) :
  let r := updateStock clr sz q w in
  let cur := slot_stock (this w) clr sz in
  (cur + q < 0 →
     ∃ e, r.1 = Js.Throw e ∧ Js.includes "Insufficient stock" e = true)
  ∧ (∀ e, r.1 = Js.Throw e → stored r.2 = stored w)
  ∧ (∀ d, r.1 = Js.Normal d →
       r.2 = mkWorld d d ∧ 0 ≤ cur + q ∧ validation_errors d = []
       ∧ ∃ cv, cv ∈ variants_of (this w) ∧ color cv = clr)
  ∧ (∀ c s,
       slot_stock (this r.2) c s
       = slot_stock (this w) c s
         + (if decide (c = clr ∧ s = sz) then applied (this w) clr sz q else 0)).
Proof.
  intros r cur. subst r cur.
  pose proof (updateStock_slot_stock w clr sz q) as Hframe.
  destruct (updateStock_cases w clr sz q)
    as [(Hq & Hr)|[(Hq & Hbad & Hr)|(Hq & Hok & Hr)]];
    rewrite Hr in Hframe |- *; simpl in *; split_and!; try done.
  - intros _. eexists. split; [done|]. apply insufficient_stock_recognised.
  - lia.
  - lia.
  - intros ? [= <-]. split_and!; [done..| |].
    + by apply validation_errors_nil.
    + apply color_found.
      by apply schema_ok_after, after_call_ok_inv in Hok as [? _].
Qed.

(** X20. On a product that passes validation, a call returns exactly when
    some ColorVariant has the color, the stock of the addressed slot (0 when
    it is not there) plus the quantity is not negative, and the size is
    there under that color or is one the [size] validator accepts. *)
Theorem updateStock_returns_iff (w : World) (clr : string) (sz : Size) (q : Z) :
  validation_errors (this w) = [] →
  (∃ d, (updateStock clr sz q w).1 = Js.Normal d) ↔
    (∃ cv, cv ∈ variants_of (this w) ∧ color cv = clr)
    ∧ 0 ≤ slot_stock (this w) clr sz + q
    ∧ (is_Some (slot (this w) clr sz) ∨ size_validator sz = true).
Proof.
  intros [_ Hvs]%validation_errors_nil%schema_ok_variants.
  rewrite <- color_found.
  destruct (updateStock_cases w clr sz q)
    as [(Hq & ->)|[(Hq & Hbad & ->)|(Hq & Hok & ->)]]; simpl.
  - split; [by intros [? ?]|]. intros (_ & ? & _). lia.
  - split; [by intros [? ?]|]. intros (Hfound & _ & Hsz).
    destruct Hbad. apply schema_ok_after. by apply after_call_ok.
  - split; [|by eexists]. intros _.
    apply schema_ok_after, after_call_ok_inv in Hok as [? ?]. done.
Qed.

Lemma updateStock_returns_iff_witness :
  (∃ d, (updateStock "black" (NumSize 9) 3
           (loaded (mkDoc (Some
              [mkColorVariant "black" [mkSizeVariant (NumSize 8) 10] None])))).1
        = Js.Normal d).
Proof.
  apply updateStock_returns_iff; [reflexivity|].
  split_and!.
  - eexists. split; [apply list_elem_of_here|reflexivity].
  - vm_compute. discriminate.
  - by right.
Defined.

(** *** Calls on a slot that is there, one after the other *)

(** On a product that passes validation, a call on a slot that is there
    with a quantity its stock allows returns, stores the product, and
    leaves the slot there with the sum. *)
Lemma updateStock_existing_ok (w : World) clr sz q sv :
  schema_ok (this w) → slot (this w) clr sz = Some sv → 0 ≤ stock sv + q →
  let d := mkDoc (Some (after_call clr sz q (variants_of (this w)))) in
  updateStock clr sz q w = (Js.Normal d, mkWorld d d)
  ∧ schema_ok d
  ∧ slot d clr sz = Some (mkSizeVariant (size sv) (stock sv + q)).
Proof.
  intros [Hthis Hvs]%schema_ok_variants Hslot Hq d.
  assert (Hcur : slot_stock (this w) clr sz = stock sv)
    by (unfold slot_stock; by rewrite Hslot).
  assert (Hok : schema_ok d).
  { apply schema_ok_after, after_call_ok; [done| |left].
    - apply slot_Some in Hslot as (i & cv & j & -> & _). done.
    - unfold slot in *. rewrite variants_of_Some. by rewrite Hslot. }
  split_and!; [|done|].
  - destruct (updateStock_cases w clr sz q)
      as [(? & _)|[(_ & ? & _)|(_ & _ & ->)]]; [lia|done|done].
  - apply slot_Some in Hslot as (i & cv & j & Hc & Hs).
    apply slot_Some. subst d. rewrite variants_of_Some. unfold after_call.
    rewrite Hc, Hs. rewrite (proj2 (Z.ltb_ge _ _)) by done.
    pose proof Hc as (_ & Hcv & _)%list_find_Some.
    pose proof Hs as (_ & Hsv & _)%list_find_Some.
    eexists i, _, j. split.
    + by apply (find_insert_found _ _ _ cv).
    + simpl. by apply (find_insert_found _ _ _ sv).
Qed.

Lemma after_call_twice clr sz q1 q2 vs sv :
  slot (mkDoc (Some vs)) clr sz = Some sv →
  0 ≤ stock sv + q1 → 0 ≤ stock sv + q1 + q2 →
  after_call clr sz q2 (after_call clr sz q1 vs) = after_call clr sz (q1 + q2) vs.
Proof.
  intros (i & cv & j & Hc & Hs)%slot_Some H1 H2.
  rewrite variants_of_Some in Hc.
  pose proof Hc as (_ & Hcv & _)%list_find_Some.
  pose proof Hs as (_ & Hsv & _)%list_find_Some.
  unfold after_call at 2 3. rewrite Hc, Hs.
  rewrite !(proj2 (Z.ltb_ge _ _)) by lia.
  unfold after_call.
  rewrite (find_insert_found _ _ _ _
             (mkColorVariant (color cv)
                (<[j:=mkSizeVariant (size sv) (stock sv + q1)]> (sizes cv))
                (images cv)) Hc) by done.
  simpl.
  rewrite (find_insert_found _ _ _ _
             (mkSizeVariant (size sv) (stock sv + q1)) Hs) by done.
  simpl. rewrite (proj2 (Z.ltb_ge _ _)) by lia.
  rewrite !list_insert_insert_eq. by rewrite Z.add_assoc.
Qed.

Lemma after_call_zero clr sz vs sv :
  slot (mkDoc (Some vs)) clr sz = Some sv → 0 ≤ stock sv →
  after_call clr sz 0 vs = vs.
Proof.
  intros (i & cv & j & Hc & Hs)%slot_Some Hsv.
  rewrite variants_of_Some in Hc.
  pose proof Hc as (Hi & _ & _)%list_find_Some.
  pose proof Hs as (Hj & _ & _)%list_find_Some.
  unfold after_call. rewrite Hc, Hs, Z.add_0_r.
  rewrite (proj2 (Z.ltb_ge _ _)) by lia.
  assert (mkSizeVariant (size sv) (stock sv) = sv) as -> by (by destruct sv).
  rewrite (list_insert_id _ _ _ Hj).
  assert (mkColorVariant (color cv) (sizes cv) (images cv) = cv) as ->
    by (by destruct cv).
  by rewrite (list_insert_id _ _ _ Hi).
Qed.

(** X10. Two deltas on a slot that is there compose.  On a product that
    passes validation, when the stock allows [q1] and then [q2] and all the
    numbers involved are safe integers, calling [updateStock] with [q1] and
    then with [q2] gives the same result, the same product and the same
    stored copy as one call with [q1 + q2]. *)
Theorem updateStock_twice (w : World) (clr : string) (sz : Size) (q1 q2 : Z)
    (sv : SizeVariant) :
  validation_errors (this w) = [] →
  slot (this w) clr sz = Some sv →
  0 ≤ stock sv + q1 →
  0 ≤ stock sv + q1 + q2 →
  Forall (λ n, Js.is_safe_integer n = true)
    [stock sv; q1; q2; stock sv + q1; q1 + q2; stock sv + q1 + q2] →
  updateStock clr sz q2 (updateStock clr sz q1 w).2
  = updateStock clr sz (q1 + q2) w.
Proof.
  intros Hok%validation_errors_nil Hslot H1 H2 _.
  destruct (updateStock_existing_ok w clr sz q1 sv Hok Hslot H1)
    as (-> & Hok1 & Hslot1).
  destruct (updateStock_existing_ok w clr sz (q1 + q2) sv Hok Hslot)
    as (-> & _); [lia|].
  cbv zeta. simpl.
  set (d1 := mkDoc (Some (after_call clr sz q1 (variants_of (this w))))) in *.
  destruct (updateStock_existing_ok (mkWorld d1 d1) clr sz q2 _ Hok1 Hslot1)
    as (-> & _); [simpl; lia|].
  simpl. subst d1. rewrite variants_of_Some.
  rewrite (after_call_twice _ _ _ _ _ sv); [done| |done..].
  by destruct (schema_ok_variants _ Hok) as [<- _].
Qed.

Lemma updateStock_twice_witness :
  updateStock "black" (NumSize 8) 7
    (updateStock "black" (NumSize 8) (-5)
       (loaded (mkDoc (Some
          [mkColorVariant "black" [mkSizeVariant (NumSize 8) 10] None])))).2
  = updateStock "black" (NumSize 8) (-5 + 7)
      (loaded (mkDoc (Some
         [mkColorVariant "black" [mkSizeVariant (NumSize 8) 10] None]))).
Proof.
  apply (updateStock_twice _ _ _ _ _ (mkSizeVariant (NumSize 8) 10));
    [reflexivity|reflexivity|vm_compute; discriminate..|].
  repeat constructor.
Defined.

(** X11. Taking back what was added restores the product.  On a product
    that passes validation and is stored as it is in memory, for a slot
    that is there, a quantity that its stock allows followed by the opposite
    quantity returns the product exactly as it was, and stores it; the
    numbers involved are safe integers. *)
Theorem updateStock_undo (p : Doc) (clr : string) (sz : Size) (q : Z)
    (sv : SizeVariant) :
  validation_errors p = [] →
  slot p clr sz = Some sv →
  0 ≤ stock sv + q →
  Forall (λ n, Js.is_safe_integer n = true) [stock sv; q; stock sv + q] →
  updateStock clr sz (- q) (updateStock clr sz q (loaded p)).2
  = (Js.Normal p, loaded p).
Proof.
  intros Hok%validation_errors_nil Hslot Hq _.
  destruct (schema_ok_variants _ Hok) as [Hp Hvs].
  assert (Hsv : 0 ≤ stock sv).
  { pose proof Hslot as (i & cv & j & (Hi & _)%list_find_Some
                           & (Hj & _)%list_find_Some)%slot_Some.
    eapply stock_nonneg_ok; [|done].
    exact (Forall_lookup_1 _ _ _ _ Hvs Hi). }
  destruct (updateStock_existing_ok (loaded p) clr sz q sv Hok Hslot Hq)
    as (-> & Hok1 & Hslot1).
  cbv zeta. simpl.
  set (d1 := mkDoc (Some (after_call clr sz q (variants_of p)))) in *.
  destruct (updateStock_existing_ok (mkWorld d1 d1) clr sz (- q) _ Hok1 Hslot1)
    as (-> & _); [simpl; lia|].
  simpl. subst d1. rewrite variants_of_Some.
  rewrite (after_call_twice _ _ _ _ _ sv); [|by rewrite <- Hp|lia..].
  rewrite Z.add_opp_diag_r.
  rewrite (after_call_zero _ _ _ sv); [|by rewrite <- Hp|done].
  by rewrite <- Hp.
Qed.

Lemma updateStock_undo_witness :
  let p := mkDoc (Some
    [mkColorVariant "black" [mkSizeVariant (NumSize 8) 10] None]) in
  updateStock "black" (NumSize 8) (- -4)
    (updateStock "black" (NumSize 8) (-4) (loaded p)).2
  = (Js.Normal p, loaded p).
Proof.
  intros p.
  apply (updateStock_undo p "black" (NumSize 8) (-4)
           (mkSizeVariant (NumSize 8) 10));
    [reflexivity|reflexivity|vm_compute; discriminate|].
  repeat constructor.
Defined.

End outcome.

(** ** The bulk endpoint *)

Section bulk.
Import Product ProductController Spec.

Lemma color_test v :
  falsy v || negb (String.eqb (typeof v) "string")
  = match v with JStr s => String.eqb s EmptyString | _ => true end.
Proof.
  destruct v as [| |[]| | |]; simpl; by rewrite ?orb_true_r, ?orb_false_r.
Qed.


Lemma for_of_app {A} (body : Log → A → M Log) xs ys : ∀ l w,
  for_of body (xs ++ ys) l w =
    match for_of body xs l w with
    | (Js.Normal l', w') => for_of body ys l' w'
    | (Js.Throw e, w') => (Js.Throw e, w')
    end.
Proof.
  induction xs as [|x xs IH]; intros l w; simpl; [done|].
  rewrite !bind_eq. destruct (body l x w) as [[l1|e] w1]; [apply IH|done].
Qed.

Lemma for_of_ext {A B} (f : A → B) (body1 : Log → A → M Log)
    (body2 : Log → B → M Log) :
  (∀ l x w, body1 l x w = body2 l (f x) w) →
  ∀ xs l w, for_of body1 xs l w = for_of body2 (f <$> xs) l w.
Proof.
  intros Hb xs. induction xs as [|x xs IH]; intros l w; csimpl; [done|].
  rewrite !bind_eq, Hb. destruct (body2 l (f x) w) as [[l1|e] w1]; [apply IH|done].
Qed.

(** A well-typed triple is handled by invoking [updateStock] and logging
    the outcome. *)
Lemma size_step_attempt clr l sz q w :
  size_step clr l (mkSizeUpdate (JNum sz) (JNum q)) w = attempt l (clr, sz, q) w.
Proof.
  unfold size_step, attempt, Js.try_catch; simpl. rewrite bind_eq.
  by destruct (Product.updateStock clr (NumSize sz) q w) as [[d|e] w'].
Qed.





Lemma variant_step_typed g l w :
  group_color g ≠ EmptyString →
  variant_step l (to_variant g) w =
    for_of attempt ((λ sq, (group_color g, sq.1, sq.2)) <$> group_sizes g) l w.
Proof.
  intros Hc%String.eqb_neq. unfold variant_step, to_variant; simpl.
  rewrite Hc.
  rewrite <- (for_of_ext (λ sq : Z * Z, (group_color g, sq.1, sq.2))
    (λ l sq, attempt l (group_color g, sq.1, sq.2)) attempt) by done.
  rewrite <- (for_of_ext (λ sq : Z * Z, mkSizeUpdate (JNum sq.1) (JNum sq.2))
    (λ l sq, size_step (group_color g) l (mkSizeUpdate (JNum sq.1) (JNum sq.2)))
    (size_step (group_color g))) by done.
  clear Hc. revert l w.
  induction (group_sizes g) as [|sq szs IH]; intros l w; simpl; [done|].
  rewrite !bind_eq, size_step_attempt.
  destruct (attempt _ _ _) as [[l1|e] w1]; [apply IH|done].
Qed.

Lemma bulk_typed gs :
  Forall (λ g, group_color g ≠ EmptyString) gs →
  ∀ l w, for_of variant_step (to_variant <$> gs) l w
         = for_of attempt (triples gs) l w.
Proof.
  induction 1 as [|g gs Hg _ IH]; intros l w; [done|].
  unfold triples in *. csimpl. rewrite for_of_app, bind_eq.
  rewrite variant_step_typed by done.
  destruct (for_of attempt _ l w) as [[l1|e] w1]; [apply IH|done].
Qed.

(** *** The loop, entry by entry *)









(** C8. The bulk loop never attempts a triple whose size is a string: it
    logs an invalid-size failure and leaves the store alone.  A request for
    5 more of black/M is therefore rejected by the bulk endpoint with the
    product unchanged, while the single-slot endpoint applies the same
    triple. *)
Theorem updateBulkStock_string_size (clr s : string) (q : JsVal) (l : Log)
    (w : World) :
  size_step clr l (mkSizeUpdate (JStr s) q) w
    = (Js.Normal (push_error l
         ("Invalid size for color " +:+ Js.dq +:+ clr +:+ Js.dq
            +:+ ": must be a number")), w)
  ∧ (let p := mkDoc (Some
       [mkColorVariant "black" [mkSizeVariant (StrSize "M") 10] None]) in
     updateBulkStock
       (Some [mkVariantUpdate (JStr "black")
                (Some [mkSizeUpdate (JStr "M") (JNum 5)])])
       (Some p)
     = (mkApiResponse 400 false None "Failed to update stock"
          (Some ["Invalid size for color " +:+ Js.dq +:+ "black" +:+ Js.dq
                   +:+ ": must be a number"]),
        Some (loaded p))
     ∧ ∃ message,
         ProductController.updateStock (JStr "black") (JStr "M") (JNum 5)
           (Some p)
         = let d := mkDoc (Some
             [mkColorVariant "black" [mkSizeVariant (StrSize "M") 15] None])
           in (mkApiResponse 200 true (Some d) message None,
               Some (mkWorld d d))).
Proof.
  split; [reflexivity|]. split; [reflexivity|].
  eexists. vm_compute. reflexivity.
Qed.

(** C2. A failing [updateStock] is not free of side effects.  On a product
    with the single slot black/8 holding 5, taking 1 from red/9 throws with
    the message naming the color, the size, the available stock 0 and the
    requested -1, and nothing is stored; but the product in memory has
    gained the color red, without sizes.  Such a product does not pass
    validation, so in the bulk endpoint, where the same document serves
    every triple, the triple black/8 +5 that follows fails too: the request
    is answered 400 with two errors and nothing is stored, while the same
    triple sent alone is applied. *)
Theorem updateStock_failure_leaves_slot :
  let black n := mkColorVariant "black" [mkSizeVariant (NumSize 8) n] None in
  let red := mkColorVariant "red" [] (Some []) in
  let p := mkDoc (Some [black 5]) in
  let take_red :=
    mkVariantUpdate (JStr "red") (Some [mkSizeUpdate (JNum 9) (JNum (-1))]) in
  let add_black :=
    mkVariantUpdate (JStr "black") (Some [mkSizeUpdate (JNum 8) (JNum 5)]) in
  Product.updateStock "red" (NumSize 9) (-1) (loaded p)
    = (Js.Throw ("Insufficient stock for color " +:+ Js.dq +:+ "red"
                   +:+ Js.dq +:+ " size 9. Available: 0, Requested: -1"),
       mkWorld (mkDoc (Some [black 5; red])) p)
  ∧ (let r := updateBulkStock (Some [take_red; add_black]) (Some p) in
     status r.1 = 400 ∧ success r.1 = false ∧ data r.1 = None
     ∧ length <$> errors r.1 = Some 2%nat
     ∧ stored <$> r.2 = Some p)
  ∧ (let r := updateBulkStock (Some [add_black]) (Some p) in
     status r.1 = 200 ∧ errors r.1 = None
     ∧ r.2 = Some (loaded (mkDoc (Some [black 10])))).
Proof. cbv zeta. split_and!; reflexivity. Qed.

End bulk.

(** ** The single-slot endpoint *)

Section endpoint.
Import Product ProductController Spec.

Lemma endpoint_well_typed c v sz q found :
  c ≠ EmptyString → to_size v = Some sz →
  ProductController.updateStock (JStr c) v (JNum q) found =
    match found with
    | None => (mkApiResponse 404 false None "Product not found" None, None)
    | Some product => single_call c sz q product
    end.
Proof.
  intros Hc Hv. unfold ProductController.updateStock.
  assert (falsy (JStr c) || negb (String.eqb (typeof (JStr c)) "string") = false)
    as ->.
  { simpl. by destruct c. }
  destruct v; simplify_eq/=; by destruct found.
Qed.

(** The three answers of the call, by its outcome. *)
Lemma single_call_cases c sz q p :
  let cur := slot_stock p c sz in
  let d := mkDoc (Some (after_call c sz q (variants_of p))) in
  let r := single_call c sz q p in
  (cur + q < 0
   ∧ status r.1 = 400 ∧ success r.1 = false ∧ data r.1 = None
   ∧ r.2 = Some (mkWorld d p))
  ∨ (0 ≤ cur + q ∧ ¬ schema_ok d
     ∧ status r.1 = 500 ∧ success r.1 = false ∧ data r.1 = None
     ∧ r.2 = Some (mkWorld d p))
  ∨ (0 ≤ cur + q ∧ schema_ok d
     ∧ status r.1 = 200 ∧ success r.1 = true ∧ data r.1 = Some d
     ∧ errors r.1 = None ∧ r.2 = Some (mkWorld d d)).
Proof.
  intros cur d r. subst cur d r. unfold single_call.
  destruct (updateStock_cases (loaded p) c sz q)
    as [(Hq & ->)|[(Hq & Hbad & ->)|(Hq & Hok & ->)]]; cbv beta iota.
  - left. by rewrite (proj1 (insufficient_stock_recognised _ _ _ _)).
  - right; left. by rewrite validation_not_insufficient.
  - right; right. done.
Qed.

(** X12. The single-slot endpoint on a request with a non-empty color
    string, a number or string size and a number quantity, for a product
    that exists and passes validation.  (1) The slot is there and its stock
    allows the quantity: the answer is 200 with the updated product, which
    is what is stored, and the slot holds the sum.  (2) The stock of the slot
    (0 when it is not there) plus the quantity is negative: the answer is
    400 and nothing is stored.  (3) No ColorVariant has the color and the
    quantity is not negative: the answer is 500 and nothing is stored.
    (4) The color is there, the size is not, the quantity is not negative
    and the size is a valid one: the answer is 200 with the product as it
    is stored, in which the new slot holds 0. *)
Theorem updateStock_endpoint (c : string) (v : JsVal) (sz : Size) (q : Z)
    (p : Doc) :
  c ≠ EmptyString → to_size v = Some sz → validation_errors p = [] →
  let r := ProductController.updateStock (JStr c) v (JNum q) (Some p) in
  let d := mkDoc (Some (after_call c sz q (variants_of p))) in
  (∀ sv, slot p c sz = Some sv → 0 ≤ stock sv + q →
     status r.1 = 200 ∧ success r.1 = true ∧ data r.1 = Some d
     ∧ errors r.1 = None ∧ r.2 = Some (mkWorld d d)
     ∧ slot_stock d c sz = stock sv + q)
  ∧ (slot_stock p c sz + q < 0 →
       status r.1 = 400 ∧ success r.1 = false ∧ data r.1 = None
       ∧ stored <$> r.2 = Some p)
  ∧ ((∀ cv, cv ∈ variants_of p → Product.color cv ≠ c) → 0 ≤ q →
       status r.1 = 500 ∧ success r.1 = false ∧ data r.1 = None
       ∧ stored <$> r.2 = Some p)
  ∧ ((∃ cv, cv ∈ variants_of p ∧ Product.color cv = c) → slot p c sz = None →
       0 ≤ q → size_validator sz = true →
       status r.1 = 200 ∧ success r.1 = true ∧ data r.1 = Some d
       ∧ r.2 = Some (mkWorld d d) ∧ slot_stock d c sz = 0).
Proof.
  intros Hc Hv Hok%validation_errors_nil r d. subst r.
  rewrite (endpoint_well_typed c v sz q _ Hc Hv).
  destruct (schema_ok_variants _ Hok) as [Hp Hvs].
  pose proof (updateStock_slot_stock (loaded p) c sz q c sz) as Hslot.
  rewrite updateStock_this, decide_True in Hslot by done. simpl in Hslot.
  fold d in Hslot.
  split_and!.
  - intros sv Hsv Hq.
    assert (Hcur : slot_stock p c sz = stock sv)
      by (unfold slot_stock; by rewrite Hsv).
    assert (Happ : applied p c sz q = q).
    { unfold applied. rewrite Hsv. by rewrite (proj2 (Z.ltb_ge _ _)). }
    assert (schema_ok d).
    { apply schema_ok_after, after_call_ok; [done| |left].
      - apply slot_Some in Hsv as (i & cv & j & -> & _). done.
      - unfold slot in *. rewrite variants_of_Some. by rewrite Hsv. }
    destruct (single_call_cases c sz q p)
      as [(? & _)|[(_ & ? & _)|(_ & _ & ? & ? & ? & ? & ?)]]; [lia|done|].
    split_and!; try done. fold d. lia.
  - intros Hq.
    destruct (single_call_cases c sz q p)
      as [(_ & ? & ? & ? & ->)|[(? & _)|(? & _)]]; [done|lia..].
  - intros Hnone%color_not_found Hq.
    assert (Hcur : slot_stock p c sz = 0).
    { unfold slot_stock. by rewrite slot_None_color. }
    destruct (single_call_cases c sz q p)
      as [(? & _)|[(_ & _ & ? & ? & ? & ->)|(_ & Hd & _)]]; [lia|done|].
    apply schema_ok_after, after_call_ok_inv in Hd as [Hfound _].
    rewrite Hnone in Hfound. by destruct Hfound.
  - intros Hfound%color_found Hnone Hq Hsz.
    assert (Hcur : slot_stock p c sz = 0).
    { unfold slot_stock. by rewrite Hnone. }
    assert (Happ : applied p c sz q = 0).
    { unfold applied. by rewrite Hnone. }
    assert (schema_ok d).
    { apply schema_ok_after, after_call_ok; [done|done|by right]. }
    destruct (single_call_cases c sz q p)
      as [(? & _)|[(_ & ? & _)|(_ & _ & ? & ? & ? & ? & ?)]]; [lia|done|].
    split_and!; try done. fold d. lia.
Qed.

Lemma updateStock_endpoint_witness :
  status (ProductController.updateStock (JStr "red") (JNum 9) (JNum 3)
    (Some (mkDoc (Some
       [mkColorVariant "black" [mkSizeVariant (NumSize 8) 5] None])))).1
  = 500.
Proof.
  refine (proj1 (proj1 (proj2 (proj2 (updateStock_endpoint "red" (JNum 9)
    (NumSize 9) 3
    (mkDoc (Some [mkColorVariant "black" [mkSizeVariant (NumSize 8) 5] None]))
    _ _ _))) _ _)); [discriminate|reflexivity|reflexivity| |lia].
  intros cv [->|[]%elem_of_nil]%elem_of_cons. discriminate.
Defined.

Lemma color_cases (clr : JsVal) :
  (∃ c, clr = JStr c ∧ c ≠ EmptyString)
  ∨ ¬ (∃ c, clr = JStr c ∧ c ≠ EmptyString).
Proof.
  destruct clr as [| | | |c|]; try (right; by intros (? & ? & ?)).
  destruct c as [|a c]; [right; intros (? & [= <-] & ?); done|].
  left. by eexists.
Qed.

Lemma number_cases (qty : JsVal) :
  (∃ q, qty = JNum q) ∨ ¬ (∃ q, qty = JNum q).
Proof. destruct qty; try (right; by intros [? ?]). left. by eexists. Qed.

(** X13. The two stock endpoints check the body before they look for the
    product.  In the single-slot endpoint a color that is not a non-empty
    string, a size that is neither a number nor a string, or a quantity that
    is not a number is answered 400 without data, and no product is loaded
    or changed, whatever the lookup would give; a well-typed request is
    answered 404 when the lookup finds no product, and when the lookup
    rejects it is answered from the [catch]: 500, or 400 should the message
    of the error hold the words of the insufficient-stock test, with that
    message as the only error.  In the bulk endpoint a [variants] that is
    not an array is answered 400 whatever the lookup would give; for an
    array the answer is 404 when no product is found and 500 when the lookup
    rejects. *)
Theorem updateStock_endpoint_rejections (clr sz qty : JsVal) (lookup : Lookup) :
  let r := updateStock_handler clr sz qty lookup in
  let well_typed :=
    (∃ c, clr = JStr c ∧ c ≠ EmptyString) ∧ is_Some (to_size sz)
    ∧ ∃ q, qty = JNum q in
  (¬ well_typed →
     status r.1 = 400 ∧ success r.1 = false ∧ data r.1 = None ∧ r.2 = None)
  ∧ (well_typed → lookup = Resolves None → status r.1 = 404 ∧ r.2 = None)
  ∧ (well_typed → ∀ e, lookup = Rejects e →
       status r.1 = (if Js.includes "Insufficient stock" e then 400 else 500)
       ∧ success r.1 = false ∧ data r.1 = None ∧ errors r.1 = Some [e]
       ∧ r.2 = None)
  ∧ (status (updateBulkStock_handler None lookup).1 = 400
     ∧ (updateBulkStock_handler None lookup).2 = None)
  ∧ (∀ vs,
       (lookup = Resolves None →
        status (updateBulkStock_handler (Some vs) lookup).1 = 404)
       ∧ (∀ e, lookup = Rejects e →
            updateBulkStock_handler (Some vs) lookup
            = (mkApiResponse 500 false None "Error updating bulk stock"
                 (Some [e]), None))).
Proof.
  intros r well_typed. subst r well_typed.
  assert (Hbulk : ∀ vs,
    (lookup = Resolves None →
     status (updateBulkStock_handler (Some vs) lookup).1 = 404)
    ∧ (∀ e, lookup = Rejects e →
         updateBulkStock_handler (Some vs) lookup
         = (mkApiResponse 500 false None "Error updating bulk stock"
              (Some [e]), None))).
  { intros vs. split; [by intros ->|by intros e ->]. }
  assert (Hnone : status (updateBulkStock_handler None lookup).1 = 400
                  ∧ (updateBulkStock_handler None lookup).2 = None)
    by (by destruct lookup).
  assert (Hmalformed : ∀ answer,
    ProductController.updateStock clr sz qty None = answer →
    falsy clr || negb (String.eqb (typeof clr) "string")
      || negb (String.eqb (typeof sz) "number")
         && negb (String.eqb (typeof sz) "string")
      || negb (String.eqb (typeof qty) "number") = true →
    (∀ found, ProductController.updateStock clr sz qty found = answer) →
    updateStock_handler clr sz qty lookup = answer).
  { intros answer Hnull Htest Hall. destruct lookup as [found|e]; simpl.
    - apply Hall.
    - by rewrite Htest. }
  destruct (color_cases clr) as [(c & -> & Hc)|Hclr].
  - destruct (to_size sz) as [s|] eqn:Hsz.
    + destruct (number_cases qty) as [[q ->]|Hq].
      * split; [|split; [|split; [|exact (conj Hnone Hbulk)]]].
        -- intros []. split_and!; by eauto.
        -- intros _ ->. simpl.
           by rewrite (endpoint_well_typed c sz s q None Hc Hsz).
        -- intros _ e ->. unfold updateStock_handler.
           assert (falsy (JStr c) || negb (String.eqb (typeof (JStr c)) "string")
                   = false) as -> by (simpl; by destruct c).
           assert (negb (String.eqb (typeof sz) "number")
                   && negb (String.eqb (typeof sz) "string") = false) as ->
             by (by destruct sz).
           done.
      * rewrite (Hmalformed
          (mkApiResponse 400 false None "Quantity must be a number" None, None)).
        -- split; [done|]. split; [|split; [|exact (conj Hnone Hbulk)]];
             intros (_ & _ & ?); done.
        -- unfold ProductController.updateStock.
           destruct c; [done|]. destruct sz; simplify_eq/=;
             destruct qty; simpl; try done; destruct Hq; by eexists.
        -- destruct qty; simpl; rewrite ?orb_true_r; try done.
           destruct Hq. by eexists.
        -- intros found. unfold ProductController.updateStock.
           destruct c; [done|]. destruct sz; simplify_eq/=;
             destruct qty; simpl; try done; destruct Hq; by eexists.
    + rewrite (Hmalformed
        (mkApiResponse 400 false None
           "Size is required and must be a number or string" None, None)).
      * split; [done|]. split; [|split; [|exact (conj Hnone Hbulk)]];
          intros (_ & [? ?] & _); done.
      * unfold ProductController.updateStock. destruct c; [done|]. by destruct sz.
      * destruct sz; simplify_eq/=; by rewrite ?orb_true_r.
      * intros found. unfold ProductController.updateStock.
        destruct c; [done|]. by destruct sz.
  - assert (Htest : falsy clr || negb (String.eqb (typeof clr) "string") = true).
    { rewrite color_test. destruct clr as [| | | |c|]; try done.
      destruct c; [done|]. destruct Hclr. by eexists. }
    rewrite (Hmalformed
      (mkApiResponse 400 false None
         "Color is required and must be a string" None, None)).
    + split; [done|]. split; [|split; [|exact (conj Hnone Hbulk)]];
        intros (? & _); done.
    + unfold ProductController.updateStock. by rewrite Htest.
    + by rewrite Htest.
    + intros found. unfold ProductController.updateStock. by rewrite Htest.
Qed.

End endpoint.

(** ** Restocking in bulk *)

Section restock.
Import Product ProductController Spec.

(** Replacing an element by one that the scan treats alike leaves the
    position of the first match where it was. *)
Lemma find_insert_alike {A} (P : A → Prop) `{!∀ x, Decision (P x)}
    (l : list A) i y y' k x :
  list_find P l = Some (k, x) → l !! i = Some y → (P y ↔ P y') →
  list_find P (<[i:=y']> l) = Some (k, if decide (k = i) then y' else x).
Proof.
  intros (Hk & Hx & Hbefore)%list_find_Some Hi Hiff.
  apply list_find_Some. split_and!.
  - case_decide as Hki.
    + subst k. apply list_lookup_insert_eq. by eapply lookup_lt_Some.
    + by rewrite list_lookup_insert_ne.
  - case_decide as Hki; [|done]. subst k. apply Hiff. congruence.
  - intros j z Hj Hjk. destruct (decide (j = i)) as [->|Hji].
    + rewrite list_lookup_insert_eq in Hj by (by eapply lookup_lt_Some).
      injection Hj as <-. intros Hy'%Hiff. by eapply Hbefore.
    + rewrite list_lookup_insert_ne in Hj by done. by eapply Hbefore.
Qed.

(** A call on a slot that is there removes no slot. *)
Lemma after_call_slot_persists clr sz q vs sv c s :
  slot (mkDoc (Some vs)) clr sz = Some sv → 0 ≤ stock sv + q →
  is_Some (slot (mkDoc (Some vs)) c s) →
  is_Some (slot (mkDoc (Some (after_call clr sz q vs))) c s).
Proof.
  intros (i & cv & j & Hc & Hs)%slot_Some Hq [sv0 Hslot0].
  apply slot_Some in Hslot0 as (i0 & cv0 & j0 & Hc0 & Hs0).
  rewrite variants_of_Some in Hc, Hc0.
  pose proof Hc as (Hi & _ & _)%list_find_Some.
  pose proof Hs as (Hj & _ & _)%list_find_Some.
  unfold slot, after_call. rewrite variants_of_Some, Hc, Hs.
  rewrite (proj2 (Z.ltb_ge _ _)) by done.
  set (cv' := mkColorVariant (Product.color cv)
                (<[j:=mkSizeVariant (Product.size sv) (stock sv + q)]>
                   (Product.sizes cv)) (images cv)).
  rewrite (find_insert_alike _ vs i cv cv' i0 cv0 Hc0 Hi) by done.
  simpl. case_decide as Hi0; [|by rewrite Hs0].
  subst i0. pose proof Hc0 as (Hi0 & _ & _)%list_find_Some.
  assert (cv0 = cv) as -> by congruence.
  subst cv'. simpl.
  by rewrite (find_insert_alike _ (Product.sizes cv) j sv
                (mkSizeVariant (Product.size sv) (stock sv + q)) j0 sv0 Hs0 Hj).
Qed.

Lemma slot_stock_ok p c s sv :
  schema_ok p → slot p c s = Some sv → 0 ≤ stock sv.
Proof.
  intros [_ Hvs]%schema_ok_variants
    (i & cv & j & (Hi & _)%list_find_Some & (Hj & _)%list_find_Some)%slot_Some.
  eapply stock_nonneg_ok; [|done]. exact (Forall_lookup_1 _ _ _ _ Hvs Hi).
Qed.

Lemma restock_attempts (ts : list (string * Z * Z)) : ∀ l d,
  schema_ok d →
  Forall (λ t, is_Some (slot d t.1.1 (NumSize t.1.2)) ∧ 0 ≤ t.2) ts →
  ∃ l' d',
    for_of attempt ts l (mkWorld d d) = (Js.Normal l', mkWorld d' d')
    ∧ log_errors l' = log_errors l
    ∧ length (updates l') = (length (updates l) + length ts)%nat
    ∧ schema_ok d'
    ∧ totalStock d' = totalStock d + sumZ (snd <$> ts).
Proof.
  induction ts as [|t ts IH]; intros l d Hok Hts.
  - exists l, d. split_and!; [done|done|simpl; lia|done|].
    change (sumZ _) with 0. lia.
  - apply Forall_cons in Hts as [[[sv Hslot] Hq] Hts]. simpl in Hslot, Hq.
    destruct (schema_ok_variants _ Hok) as [Hd _].
    pose proof (slot_stock_ok _ _ _ _ Hok Hslot) as Hsv.
    destruct (updateStock_existing_ok (mkWorld d d) t.1.1 (NumSize t.1.2) t.2
                sv Hok Hslot) as (Hr & Hok1 & _); [lia|].
    pose proof (updateStock_totalStock (mkWorld d d) t.1.1 (NumSize t.1.2) t.2)
      as (_ & _ & Htot).
    specialize (Htot sv Hslot). rewrite Hr in Htot. simpl in Htot, Hr.
    set (d1 := mkDoc (Some (after_call _ _ _ _))) in *.
    destruct (IH (push_update l (update_line t.1.1 t.1.2 t.2)) d1 Hok1)
      as (l' & d' & Hrest & Herr & Hupd & Hd' & Htotal).
    { eapply Forall_impl; [exact Hts|]. intros t' [Hslot' Hq']. split; [|done].
      subst d1. apply (after_call_slot_persists _ _ _ _ sv); [|lia|].
      - by rewrite <- Hd.
      - by rewrite <- Hd. }
    exists l', d'. split_and!; [|done| |done|].
    + simpl. rewrite bind_eq. unfold attempt at 1. by rewrite Hr.
    + rewrite Hupd. simpl. rewrite length_app. simpl. lia.
    + rewrite Htotal, Htot by lia. rewrite fmap_cons, sumZ_cons. lia.
Qed.

Lemma triples_restock gs (P : string → Z * Z → Prop) :
  Forall (λ g, group_color g ≠ EmptyString
               ∧ Forall (P (group_color g)) (group_sizes g)) gs →
  Forall (λ g, group_color g ≠ EmptyString) gs
  ∧ Forall (λ t : string * Z * Z, P t.1.1 (t.1.2, t.2)) (triples gs).
Proof.
  induction 1 as [|g gs [Hc Hq] _ [IH1 IH2]]; [by split|].
  split; [by constructor|]. unfold triples in *. csimpl.
  apply Forall_app. split; [|done]. apply Forall_fmap.
  eapply Forall_impl; [exact Hq|]. by intros [s q].
Qed.

(** X14. A bulk request that only restocks slots that are there cannot
    fail.  On a product that passes validation, when every group has a
    non-empty color string and numeric sizes that are there under that
    color, with quantities that are not negative, and the total stays a safe
    integer, the answer is 200 without an errors list, the message counts
    every triple, the returned product is the stored one and passes
    validation, and its [totalStock] is the old one plus the sum of all
    quantities. *)
Theorem updateBulkStock_restock (gs : list Group) (p : Doc) :
  validation_errors p = [] →
  Forall (λ g, group_color g ≠ EmptyString
               ∧ Forall (λ sq : Z * Z,
                   is_Some (slot p (group_color g) (NumSize sq.1)) ∧ 0 ≤ sq.2)
                   (group_sizes g)) gs →
  Js.is_safe_integer (totalStock p + sumZ (snd <$> triples gs)) = true →
  let r := updateBulkStock (Some (to_variant <$> gs)) (Some p) in
  status r.1 = 200 ∧ errors r.1 = None
  ∧ message r.1 = "Stock updated for " +:+ pretty (length (triples gs))
                    +:+ " color-size combination(s)"
  ∧ ∃ d, data r.1 = Some d ∧ r.2 = Some (mkWorld d d)
         ∧ validation_errors d = []
         ∧ totalStock d = totalStock p + sumZ (snd <$> triples gs).
Proof.
  intros Hp%validation_errors_nil Hgs _ r. subst r.
  apply (triples_restock gs
           (λ c sq, is_Some (slot p c (NumSize sq.1)) ∧ 0 ≤ sq.2))
    in Hgs as [Hcolors Hts].
  unfold updateBulkStock, bulk_loop. rewrite (bulk_typed gs Hcolors).
  destruct (restock_attempts (triples gs) (mkLog [] []) p Hp Hts)
    as (l & d & Hl & Herr & Hupd & Hd & Htot).
  unfold loaded. rewrite Hl.
  simpl in Herr, Hupd. unfold bulk_response. rewrite Herr, Hupd. simpl.
  split_and!; [done..|]. exists d. split_and!; [done..| |done].
  by apply validation_errors_nil.
Qed.

Lemma updateBulkStock_restock_witness :
  status (updateBulkStock
    (Some (to_variant <$> [mkGroup "black" [(8, 5); (9, 0)]; mkGroup "red" [(7, 2)]]))
    (Some (mkDoc (Some
       [mkColorVariant "black"
          [mkSizeVariant (NumSize 8) 1; mkSizeVariant (NumSize 9) 4] None;
        mkColorVariant "red" [mkSizeVariant (NumSize 7) 0] None])))).1
  = 200.
Proof.
  refine (proj1 (updateBulkStock_restock
    [mkGroup "black" [(8, 5); (9, 0)]; mkGroup "red" [(7, 2)]]
    (mkDoc (Some
       [mkColorVariant "black"
          [mkSizeVariant (NumSize 8) 1; mkSizeVariant (NumSize 9) 4] None;
        mkColorVariant "red" [mkSizeVariant (NumSize 7) 0] None]))
    _ _ _)).
  - reflexivity.
  - repeat constructor; (discriminate || by eexists).
  - reflexivity.
Defined.

End restock.

(** ** The product listing after the query *)

Section listing.
Import Product Spec.

Lemma slice0_prefix {A} (l : list A) (e : Z) : Js.slice0 l e `prefix_of` l.
Proof. unfold Js.slice0. destruct (e <? 0); apply prefix_take. Qed.

Lemma slice0_sublist {A} (l : list A) (e : Z) : Js.slice0 l e `sublist_of` l.
Proof. unfold Js.slice0. destruct (e <? 0); apply sublist_take. Qed.

Lemma slice0_length {A} (l : list A) (e : Z) :
  0 ≤ e → Z.of_nat (length (Js.slice0 l e)) ≤ e.
Proof.
  intros He. unfold Js.slice0. rewrite (proj2 (Z.ltb_ge _ _)) by done.
  rewrite length_take. lia.
Qed.

Lemma filter_sublist_mono {A} (P : A → Prop) `{!∀ x, Decision (P x)}
    (l1 l2 : list A) :
  l1 `sublist_of` l2 → filter P l1 `sublist_of` filter P l2.
Proof.
  induction 1 as [|x l1 l2 _ IH|x l1 l2 _ IH]; [constructor| |].
  - rewrite !filter_cons. case_decide; [by constructor|done].
  - rewrite filter_cons. case_decide; [by constructor|done].
Qed.

(** X15. What [getAllProducts] lists is picked from what the query found,
    in the same order, and holds at most [limit] products when [limit] is
    not negative.  Without the [inStock=true] filter it is a prefix of what
    was found.  With the filter every listed product is in stock in the
    sense of the [inStock] virtual, and, when the page queried is part of
    the full result, the page holds no more products than [total]
    reports. *)
Theorem listed_products_sound (inStock : option string) (limit : Z)
    (found allProducts : list Doc) (count : Z) :
  let l := ProductController.listed_products inStock limit found in
  l `sublist_of` found
  ∧ (0 ≤ limit → Z.of_nat (length l) ≤ limit)
  ∧ (inStock ≠ Some "true" → l `prefix_of` found)
  ∧ (inStock = Some "true" →
       Forall (λ p, Product.inStock p = true) l
       ∧ (found `sublist_of` allProducts →
          Z.of_nat (length l)
          ≤ ProductController.listed_total inStock allProducts count)).
Proof.
  intros l. subst l.
  unfold ProductController.listed_products, ProductController.listed_total.
  split_and!.
  - etrans; [apply slice0_sublist|].
    case_decide; [apply sublist_filter|done].
  - apply slice0_length.
  - intros Hne. rewrite decide_False by done. apply slice0_prefix.
  - intros Heq. rewrite !decide_True by done. split.
    + destruct (slice0_prefix
        (filter (λ product, ProductController.hasStock (variants product)) found)
        limit) as [k Hk].
      assert (Hall : Forall (λ p, Product.inStock p = true)
                (filter (λ product, ProductController.hasStock (variants product))
                   found)).
      { apply Forall_forall. intros p [Hp _]%list_elem_of_filter.
        rewrite <- hasStock_inStock. by apply Is_true_true. }
      rewrite Hk in Hall. by apply Forall_app in Hall as [? _].
    + intros Hsub. apply inj_le. etrans.
      * apply sublist_length, slice0_sublist.
      * by apply sublist_length, filter_sublist_mono.
Qed.

End listing.

(** ** The slug hook *)

Section slug.
Import Spec.

Lemma alnum_char c :
  Brand.is_alnum c = true →
  Js.to_lower_char c = c ∧ Js.is_whitespace c = false
  ∧ Brand.is_hyphen c = false.
Proof.
  destruct c as [[] [] [] [] [] [] [] []]; vm_compute; intros H;
    (discriminate H || by split_and!).
Qed.

Lemma hyphen_char :
  Js.to_lower_char Brand.hyphen = Brand.hyphen
  ∧ Js.is_whitespace Brand.hyphen = false
  ∧ Brand.is_alnum Brand.hyphen = false
  ∧ Brand.is_hyphen Brand.hyphen = true.
Proof. by vm_compute. Qed.

Lemma is_hyphen_true c : Brand.is_hyphen c = true ↔ c = Brand.hyphen.
Proof. unfold Brand.is_hyphen. apply bool_decide_eq_true. Qed.

Lemma whitespace_not_alnum c :
  Js.is_whitespace c = true → Brand.is_alnum c = false.
Proof.
  intros Hws. destruct (Brand.is_alnum c) eqn:Ha; [|done].
  apply alnum_char in Ha as (_ & ? & _). congruence.
Qed.

Lemma hyphen_not_alnum c :
  Brand.is_hyphen c = true → Brand.is_alnum c = false.
Proof. intros ->%is_hyphen_true. apply hyphen_char. Qed.

(** *** Dropping at the ends *)

Lemma drop_while_split {A} (p : A → bool) (l : list A) :
  ∃ k, l = k ++ Js.drop_while p l ∧ Forall (λ x, p x = true) k.
Proof.
  induction l as [|x l (k & Hk & Hall)]; simpl; [by exists []|].
  destruct (p x) eqn:Hx; [|by exists []].
  exists (x :: k). split; [by rewrite <- app_comm_cons, <- Hk|by constructor].
Qed.

Lemma drop_while_head {A} (p : A → bool) (l : list A) c :
  head (Js.drop_while p l) = Some c → p c = false.
Proof.
  induction l as [|x l IH]; simpl; [done|].
  destruct (p x) eqn:Hx; [done|]. by intros [= <-].
Qed.

Lemma drop_while_id {A} (p : A → bool) (l : list A) :
  (∀ c, head l = Some c → p c = false) → Js.drop_while p l = l.
Proof. destruct l as [|x l]; simpl; [done|]. intros H. by rewrite H. Qed.

Lemma drop_end_split {A} (p : A → bool) (l : list A) :
  ∃ k, l = Js.drop_end p l ++ k ∧ Forall (λ x, p x = true) k.
Proof.
  unfold Js.drop_end.
  destruct (drop_while_split p (reverse l)) as (k & Hk & Hall).
  exists (reverse k). split; [|by apply Forall_reverse].
  by rewrite <- reverse_app, <- Hk, reverse_involutive.
Qed.

Lemma drop_end_last {A} (p : A → bool) (l : list A) c :
  last (Js.drop_end p l) = Some c → p c = false.
Proof.
  unfold Js.drop_end. rewrite last_reverse. apply drop_while_head.
Qed.

Lemma drop_end_id {A} (p : A → bool) (l : list A) :
  (∀ c, last l = Some c → p c = false) → Js.drop_end p l = l.
Proof.
  intros H. unfold Js.drop_end. rewrite drop_while_id.
  - apply reverse_involutive.
  - intros c. rewrite head_reverse. apply H.
Qed.

(** *** The replacement of runs *)

Local Abbreviation in_class c := (Brand.is_alnum c || Brand.is_hyphen c = true).

Lemma in_class_cases c :
  in_class c ↔ Brand.is_alnum c = true ∨ c = Brand.hyphen.
Proof. by rewrite orb_true_iff, is_hyphen_true. Qed.

Lemma replace_runs_class l : ∀ b, Forall (λ c, in_class c) (Brand.replace_runs b l).
Proof.
  induction l as [|x l IH]; intros b; simpl; [constructor|].
  destruct (Brand.is_alnum x) eqn:Hx.
  - constructor; [by rewrite Hx|apply IH].
  - destruct b; [apply IH|]. constructor; [done|apply IH].
Qed.

Lemma replace_runs_head l c :
  head (Brand.replace_runs true l) = Some c → Brand.is_alnum c = true.
Proof.
  induction l as [|x l IH]; simpl; [done|].
  destruct (Brand.is_alnum x) eqn:Hx; [by intros [= <-]|done].
Qed.

Lemma replace_runs_single l : ∀ b, single_hyphens (Brand.replace_runs b l) = true.
Proof.
  induction l as [|x l IH]; intros b; simpl; [done|].
  destruct (Brand.is_alnum x) eqn:Hx.
  - simpl. rewrite IH. by destruct (alnum_char x Hx) as (_ & _ & ->).
  - destruct b; [apply IH|]. simpl. rewrite IH.
    destruct (head (Brand.replace_runs true l)) as [c|] eqn:Hc; simpl; [|done].
    apply replace_runs_head in Hc.
    by destruct (alnum_char c Hc) as (_ & _ & ->).
Qed.

Lemma single_hyphens_app l1 l2 :
  single_hyphens (l1 ++ l2) = true →
  single_hyphens l1 = true ∧ single_hyphens l2 = true.
Proof.
  induction l1 as [|x l1 IH]; simpl; [done|].
  intros [Hx Hrest]%andb_true_iff. destruct (IH Hrest) as [H1 H2].
  split; [|done]. rewrite H1, andb_true_r.
  destruct l1 as [|y l1]; simpl in *; [by rewrite andb_false_r|done].
Qed.

Lemma forallb_Forall {A} (f : A → bool) (l : list A) :
  forallb f l = true ↔ Forall (λ x, f x = true) l.
Proof.
  induction l as [|x l IH]; simpl; [by split; [constructor|]|].
  by rewrite andb_true_iff, Forall_cons, IH.
Qed.

Lemma tidy_slug_iff l :
  tidy_slug l = true ↔
    Forall (λ c, in_class c) l ∧ single_hyphens l = true
    ∧ (∀ c, head l = Some c → Brand.is_hyphen c = false)
    ∧ (∀ c, last l = Some c → Brand.is_hyphen c = false).
Proof.
  unfold tidy_slug. rewrite !andb_true_iff, forallb_Forall, !negb_true_iff.
  destruct (head l) as [h|], (last l) as [t|]; simpl; split;
    intros (? & ? & ? & ?) || intros [[[? ?] ?] ?];
    split_and!; try done; try (by intros ? [= <-]); eauto.
Qed.

Lemma slug_chars_tidy l : tidy_slug (Brand.slug_chars l) = true.
Proof.
  apply tidy_slug_iff. unfold Brand.slug_chars, Brand.strip_hyphens.
  set (l1 := Brand.replace_runs false _).
  destruct (drop_while_split Brand.is_hyphen l1) as (k1 & Hk1 & _).
  set (l2 := Js.drop_while Brand.is_hyphen l1) in *.
  destruct (drop_end_split Brand.is_hyphen l2) as (k2 & Hk2 & _).
  pose proof (replace_runs_class (Js.trim_chars (Js.to_lower_char <$> l)) false)
    as Hclass.
  pose proof (replace_runs_single (Js.trim_chars (Js.to_lower_char <$> l)) false)
    as Hsingle.
  fold l1 in Hclass, Hsingle. rewrite Hk1 in Hclass, Hsingle.
  apply Forall_app in Hclass as [_ Hclass].
  apply single_hyphens_app in Hsingle as [_ Hsingle].
  rewrite Hk2 in Hclass, Hsingle.
  apply Forall_app in Hclass as [Hclass _].
  apply single_hyphens_app in Hsingle as [Hsingle _].
  split_and!; [done|done| |apply drop_end_last].
  intros c Hc. apply (drop_while_head Brand.is_hyphen l1 c). fold l2.
  rewrite Hk2. by destruct (Js.drop_end Brand.is_hyphen l2).
Qed.

Lemma replace_runs_tidy l : ∀ b,
  Forall (λ c, in_class c) l → single_hyphens l = true →
  (b = true → ∀ c, head l = Some c → Brand.is_hyphen c = false) →
  Brand.replace_runs b l = l.
Proof.
  induction l as [|x l IH]; intros b Hclass Hsingle Hb; simpl; [done|].
  apply Forall_cons in Hclass as [Hx Hclass].
  simpl in Hsingle. apply andb_true_iff in Hsingle as [Hpair Hsingle].
  destruct (Brand.is_alnum x) eqn:Ha.
  - f_equal. by apply IH.
  - simpl in Hx.
    destruct b; [by rewrite (Hb eq_refl x eq_refl) in Hx|].
    apply is_hyphen_true in Hx as ->. f_equal. apply IH; [done..|].
    intros _ c Hc. rewrite Hc in Hpair. simpl in Hpair.
    destruct (proj1 (proj2 (proj2 hyphen_char))).
    by destruct (Brand.is_hyphen c).
Qed.

Lemma in_class_fixed c :
  in_class c → Js.to_lower_char c = c ∧ Js.is_whitespace c = false.
Proof.
  intros [Ha| ->]%in_class_cases.
  - by destruct (alnum_char c Ha) as (? & ? & _).
  - by destruct hyphen_char as (? & ? & _).
Qed.

Lemma tidy_slug_fixed l : tidy_slug l = true → Brand.slug_chars l = l.
Proof.
  intros (Hclass & Hsingle & Hhead & Hlast)%tidy_slug_iff.
  unfold Brand.slug_chars, Brand.strip_hyphens.
  assert (Js.to_lower_char <$> l = l) as ->.
  { clear -Hclass. induction Hclass as [|c l Hc _ IH]; csimpl; [done|].
    by rewrite IH, (proj1 (in_class_fixed c Hc)). }
  assert (Js.trim_chars l = l) as ->.
  { unfold Js.trim_chars. rewrite drop_while_id, drop_end_id; [done| |].
    - intros c Hc. apply in_class_fixed.
      apply (proj1 (Forall_forall _ _) Hclass). by eapply last_Some_elem_of.
    - intros c Hc. apply in_class_fixed.
      apply (proj1 (Forall_forall _ _) Hclass). by eapply head_Some_elem_of. }
  rewrite replace_runs_tidy by done.
  by rewrite drop_while_id, drop_end_id.
Qed.

Lemma chars_of_chars l : Js.chars (Js.of_chars l) = l.
Proof. apply Strings.String.list_ascii_of_string_of_list_ascii. Qed.

(** X17. Making a slug of a slug changes nothing: [slug_of] is
    idempotent. *)
Theorem slug_of_idempotent (name : string) :
  Brand.slug_of (Brand.slug_of name) = Brand.slug_of name.
Proof.
  unfold Brand.slug_of. rewrite chars_of_chars.
  by rewrite (tidy_slug_fixed _ (slug_chars_tidy _)).
Qed.

(** *** Which names give a slug *)

Local Abbreviation has_alnum l := (Exists (λ c, Brand.is_alnum c = true) l).

Lemma forall_false_exists {A} (p : A → bool) (l : list A) :
  Forall (λ x, p x = false) l ↔ ¬ Exists (λ x, p x = true) l.
Proof.
  induction l as [|x l IH].
  - split; [by intros _ ?%Exists_nil|constructor].
  - rewrite Forall_cons, Exists_cons, IH. destruct (p x); split.
    + by intros [? _].
    + intros H. destruct H. by left.
    + intros [_ ?] [?|?]; done.
    + intros H. split; [done|]. intros ?. apply H. by right.
Qed.

Lemma not_has_alnum (p : Ascii.ascii → bool) (k : list Ascii.ascii) :
  (∀ c, p c = true → Brand.is_alnum c = false) →
  Forall (λ c, p c = true) k → ¬ has_alnum k.
Proof.
  intros Hp Hk. apply forall_false_exists.
  eapply Forall_impl; [exact Hk|]. apply Hp.
Qed.

Lemma replace_runs_has_alnum l : ∀ b,
  has_alnum (Brand.replace_runs b l) ↔ has_alnum l.
Proof.
  induction l as [|x l IH]; intros b; simpl; [done|].
  destruct (Brand.is_alnum x) eqn:Hx.
  - rewrite !Exists_cons, IH. done.
  - destruct b.
    + rewrite IH, Exists_cons. split; [by right|]. intros [?|?]; [congruence|done].
    + rewrite !Exists_cons, IH.
      destruct hyphen_char as (_ & _ & Hh & _).
      split; (intros [?|?]; [congruence|by right]).
Qed.

Lemma drop_while_has_alnum (p : Ascii.ascii → bool) l :
  (∀ c, p c = true → Brand.is_alnum c = false) →
  has_alnum (Js.drop_while p l) ↔ has_alnum l.
Proof.
  intros Hp. destruct (drop_while_split p l) as (k & Hk & Hall).
  rewrite Hk at 2. rewrite Exists_app.
  pose proof (not_has_alnum p k Hp Hall). tauto.
Qed.

Lemma drop_end_has_alnum (p : Ascii.ascii → bool) l :
  (∀ c, p c = true → Brand.is_alnum c = false) →
  has_alnum (Js.drop_end p l) ↔ has_alnum l.
Proof.
  intros Hp. destruct (drop_end_split p l) as (k & Hk & Hall).
  rewrite Hk at 2. rewrite Exists_app.
  pose proof (not_has_alnum p k Hp Hall). tauto.
Qed.

Lemma slug_chars_has_alnum l :
  has_alnum (Brand.slug_chars l) ↔ has_alnum (Js.to_lower_char <$> l).
Proof.
  unfold Brand.slug_chars, Brand.strip_hyphens, Js.trim_chars.
  rewrite (drop_end_has_alnum _ _ hyphen_not_alnum).
  rewrite (drop_while_has_alnum _ _ hyphen_not_alnum).
  rewrite replace_runs_has_alnum.
  rewrite (drop_end_has_alnum _ _ whitespace_not_alnum).
  by rewrite (drop_while_has_alnum _ _ whitespace_not_alnum).
Qed.

Lemma tidy_slug_has_alnum l : tidy_slug l = true → l ≠ [] ↔ has_alnum l.
Proof.
  intros (Hclass & _ & Hhead & _)%tidy_slug_iff. split.
  - destruct l as [|c l]; [done|]. intros _. left.
    apply Forall_cons in Hclass as [Hc _].
    specialize (Hhead c eq_refl). rewrite Hhead in Hc.
    by rewrite orb_false_r in Hc.
  - intros H ->. by apply Exists_nil in H.
Qed.

Lemma of_chars_empty l : Js.of_chars l = EmptyString ↔ l = [].
Proof. by destruct l. Qed.

Lemma slug_of_facts (name : string) :
  tidy_slug (Js.chars (Brand.slug_of name)) = true
  ∧ (Brand.slug_pattern (Brand.slug_of name) = true ↔
       Exists (λ c, Brand.is_alnum (Js.to_lower_char c) = true) (Js.chars name)).
Proof.
  unfold Brand.slug_of, Brand.slug_pattern. rewrite chars_of_chars.
  pose proof (slug_chars_tidy (Js.chars name)) as Htidy.
  pose proof (tidy_slug_has_alnum _ Htidy) as Hne.
  pose proof (slug_chars_has_alnum (Js.chars name)) as Hiff.
  rewrite Exists_fmap in Hiff.
  split; [done|].
  change (λ c, Brand.is_alnum (Js.to_lower_char c) = true)
    with ((λ c, Brand.is_alnum c = true) ∘ Js.to_lower_char).
  rewrite <- Hiff, <- Hne.
  apply tidy_slug_iff in Htidy as (Hclass%forallb_Forall & _).
  destruct (Brand.slug_chars (Js.chars name)) as [|c l]; [by split|].
  split; [done|]. intros _. exact Hclass.
Qed.

(** X16. The generated slug is always tidy: it holds only lower-case
    letters, digits and hyphens, with no two hyphens in a row and none at
    either end. *)
Theorem slug_of_tidy (name : string) :
  tidy_slug (Js.chars (Brand.slug_of name)) = true.
Proof. apply slug_of_facts. Qed.

(** X18. The hook leaves a slug that is present and not empty exactly as
    it is.  When the slug is absent or empty and the name holds a letter or
    a digit, the hook sets a slug that matches the pattern the schema
    requires. *)
Theorem pre_save_slug (slug : option string) (name : string) :
  (∀ c rest, slug = Some (String c rest) → Brand.pre_save slug (Some name) = slug)
  ∧ (slug = None ∨ slug = Some EmptyString →
     Exists (λ c, Brand.is_alnum (Js.to_lower_char c) = true) (Js.chars name) →
     Brand.pre_save slug (Some name) = Some (Brand.slug_of name)
     ∧ Brand.slug_pattern (Brand.slug_of name) = true).
Proof.
  split.
  - by intros c rest ->.
  - intros Hslug Hname. split; [|by apply slug_of_facts].
    destruct name as [|c rest]; [by apply Exists_nil in Hname|].
    by destruct Hslug as [-> | ->].
Qed.

End slug.

